(** * Nanocloud machine broker: model of [api/models/Machine.js] and
      [api/services/MachineService.js]

    The JavaScript sources are embedded shallowly.  A promise is represented
    by the way it settles ([Resolved], [Rejected], or [Pending] when it never
    settles), asynchronous code is a state transformer over a [World] that
    holds the machine table, the module-level variables of the service, the
    armed timers, the clock and a log of the calls that the pool, assignment
    and lease code make to their collaborators. *)

From Stdlib Require Import ZArith String DecimalString Lia.
From stdpp Require Import base list strings relations.

Set Warnings "-register-all".

Local Open Scope string_scope.
Local Open Scope Z_scope.
Local Open Scope list_scope.

(** ** JavaScript values *)

(** What [JSON.parse] yields.  Numbers are never inspected by the code under
    study; they are kept as their literal text. *)
Inductive json : Type :=
  | JNull
  | JBool (b : bool)
  | JNum (literal : string)
  | JStr (s : string)
  | JArr (elems : list json)
  | JObj (fields : list (string * json)).

(** A JavaScript value read out of a parsed payload: either a JSON value or
    [undefined]. *)
Inductive JsVal : Type :=
  | Undefined
  | Json (j : json).

Inductive Error : Type :=
  | driverNotInitializedError
  | driverAlreadyInitializedError
  | noMachineFoundError
  | SyntaxError
  | TypeError
  | UniqueViolation
  | ExternalError (message : string).

(** How a promise ends. *)
Inductive Outcome (A : Type) : Type :=
  | Resolved (a : A)
  | Rejected (e : Error)
  | Pending.
Arguments Resolved {A} a.
Arguments Rejected {A} e.
Arguments Pending {A}.

Fixpoint lookup_field (key : string) (fields : list (string * json)) : JsVal :=
  match fields with
  | [] => Undefined
  | (k, v) :: rest => if String.eqb k key then Json v else lookup_field key rest
  end.

Definition index_key (k : nat) : string := NilEmpty.string_of_uint (Nat.to_uint k).

(** [v[k]] for a numeric [k]; [None] when the access throws a [TypeError]
    (reading a property of [null]). *)
Definition js_index (v : json) (k : nat) : option JsVal :=
  match v with
  | JNull => None
  | JArr elems =>
      Some (match elems !! k with Some x => Json x | None => Undefined end)
  | JStr s =>
      Some (match String.get k s with
            | Some c => Json (JStr (String c EmptyString))
            | None => Undefined
            end)
  | JObj fields => Some (lookup_field (index_key k) fields)
  | JBool _ | JNum _ => Some Undefined
  end.

(** [v.name]; [None] when the access throws. *)
Definition js_prop (v : json) (name : string) : option JsVal :=
  match v with
  | JNull => None
  | JObj fields => Some (lookup_field name fields)
  | _ => Some Undefined
  end.

(** [v === 'text'] *)
Definition strict_eq_string (v : JsVal) (text : string) : bool :=
  match v with
  | Json (JStr s) => String.eqb s text
  | _ => false
  end.

(** ** Records *)

Definition UserId := string.
Definition MachineId := string.

Module User.
Record t : Type := { id : UserId }.
End User.

(** Attributes of [api/models/Machine.js]. *)
Record Machine : Type := {
  id : MachineId;
  name : string;
  type : string;
  ip : string;
  username : string;
  password : string;
  domain : string;
  endDate : option Z;        (* milliseconds since the epoch, or null *)
  plazaport : Z;
  user : option UserId
}.

Module Session.
Record t : Type := {
  id : string;
  username : JsVal;
  state : JsVal;
  userId : option UserId
}.
End Session.

(** The argument of [url.format]. *)
Record Url : Type := {
  protocol : string;
  hostname : string;
  port : Z;
  pathname : string
}.

Record Response : Type := { body : string }.

Record Config : Type := {
  iaas : string;
  machinesName : string;
  machinePoolSize : Z;
  sessionDuration : Z
}.

(** ** Collaborators outside the repository *)

(** An instance of one of the classes under [api/drivers/].  What a call
    answers, and what [createMachine] does to the machine table, is the
    driver's own business. *)
Record Driver : Type := {
  driver_name : string;
  driver_initialize : Outcome unit;
  driver_createMachine : string -> list Machine -> Outcome Machine * list Machine;
  driver_destroyMachine : Machine -> Outcome unit
}.

(** Built-ins and modules the service is linked against. *)
Record Runtime : Type := {
  JSON_parse : string -> option json;     (* [None]: [SyntaxError] thrown *)
  uuid_v4 : nat -> string;                (* the n-th identifier drawn *)
  ManualDriver : Driver;
  AWSDriver : Driver;
  DummyDriver : Driver;
  OpenstackDriver : Driver
}.

(** A promise object: its identity (for [===]) and the way it settles. *)
Record PromiseObj : Type := {
  pid : nat;
  settles : Outcome Machine
}.

Record Timer : Type := {
  armed_at : Z;
  delay : Z;
  captured : Machine        (* the object closed over by the callback *)
}.

Inductive Event : Type :=
  | EvConfigGet (key : string)
  | EvFindOne (u : UserId)
  | EvClaimQuery (u : UserId)
  | EvCount
  | EvUpdate (m : MachineId) (newEndDate : Z)
  | EvDestroy (m : MachineId)
  | EvHttpGet (addr : Url)
  | EvDriverNew (key : string)
  | EvDriverInitialize
  | EvDriverCreate (machineName : string)
  | EvDriverDestroy (m : Machine)
  | EvAwaitingPush (p : nat)
  | EvSetTimeout (d : Z).

Record World : Type := {
  (* the [machine] table *)
  machines : list Machine;
  (* module-level variables of MachineService.js *)
  _driver : option Driver;
  _initializing : option (Outcome unit);
  _awaitingMachines : list PromiseObj;
  (* event loop *)
  timers : list Timer;
  clock : Z;
  next_pid : nat;
  next_uuid : nat;
  (* answers of the outside world *)
  config_store : string -> Outcome Config;
  network : Url -> Outcome Response;
  (* calls made so far, most recent first *)
  log : list Event
}.

Definition set_machines (ms : list Machine) (w : World) : World :=
  {| machines := ms; _driver := _driver w; _initializing := _initializing w;
     _awaitingMachines := _awaitingMachines w; timers := timers w;
     clock := clock w; next_pid := next_pid w; next_uuid := next_uuid w;
     config_store := config_store w;
     network := network w; log := log w |}.

Definition set_driver (d : option Driver) (w : World) : World :=
  {| machines := machines w; _driver := d; _initializing := _initializing w;
     _awaitingMachines := _awaitingMachines w; timers := timers w;
     clock := clock w; next_pid := next_pid w; next_uuid := next_uuid w;
     config_store := config_store w;
     network := network w; log := log w |}.

Definition set_initializing (p : option (Outcome unit)) (w : World) : World :=
  {| machines := machines w; _driver := _driver w; _initializing := p;
     _awaitingMachines := _awaitingMachines w; timers := timers w;
     clock := clock w; next_pid := next_pid w; next_uuid := next_uuid w;
     config_store := config_store w;
     network := network w; log := log w |}.

Definition set_awaitingMachines (l : list PromiseObj) (w : World) : World :=
  {| machines := machines w; _driver := _driver w; _initializing := _initializing w;
     _awaitingMachines := l; timers := timers w;
     clock := clock w; next_pid := next_pid w; next_uuid := next_uuid w;
     config_store := config_store w;
     network := network w; log := log w |}.

Definition set_timers (l : list Timer) (w : World) : World :=
  {| machines := machines w; _driver := _driver w; _initializing := _initializing w;
     _awaitingMachines := _awaitingMachines w; timers := l;
     clock := clock w; next_pid := next_pid w; next_uuid := next_uuid w;
     config_store := config_store w;
     network := network w; log := log w |}.

Definition set_clock (t : Z) (w : World) : World :=
  {| machines := machines w; _driver := _driver w; _initializing := _initializing w;
     _awaitingMachines := _awaitingMachines w; timers := timers w;
     clock := t; next_pid := next_pid w; next_uuid := next_uuid w;
     config_store := config_store w;
     network := network w; log := log w |}.

Definition set_next_pid (n : nat) (w : World) : World :=
  {| machines := machines w; _driver := _driver w; _initializing := _initializing w;
     _awaitingMachines := _awaitingMachines w; timers := timers w;
     clock := clock w; next_pid := n; next_uuid := next_uuid w;
     config_store := config_store w;
     network := network w; log := log w |}.

Definition set_next_uuid (n : nat) (w : World) : World :=
  {| machines := machines w; _driver := _driver w; _initializing := _initializing w;
     _awaitingMachines := _awaitingMachines w; timers := timers w;
     clock := clock w; next_pid := next_pid w; next_uuid := n;
     config_store := config_store w;
     network := network w; log := log w |}.

Definition emit (e : Event) (w : World) : World :=
  {| machines := machines w; _driver := _driver w; _initializing := _initializing w;
     _awaitingMachines := _awaitingMachines w; timers := timers w;
     clock := clock w; next_pid := next_pid w; next_uuid := next_uuid w;
     config_store := config_store w;
     network := network w; log := e :: log w |}.

(** ** Asynchronous computations *)

Definition Async (A : Type) : Type := World -> Outcome A * World.

Definition resolve {A} (a : A) : Async A := fun w => (Resolved a, w).
Definition reject {A} (e : Error) : Async A := fun w => (Rejected e, w).

(** [p.then(f)] *)
Definition then_ {A B} (p : Async A) (f : A -> Async B) : Async B :=
  fun w =>
    match p w with
    | (Resolved a, w') => f a w'
    | (Rejected e, w') => (Rejected e, w')
    | (Pending, w') => (Pending, w')
    end.

Notation "x <- p ;; k" := (then_ p (fun x => k))
  (at level 100, p at next level, right associativity).

(** A call whose promise is dropped: it runs, nobody listens to how it ends. *)
Definition forget {A} (p : Async A) (w : World) : World := snd (p w).

(** ** The Waterline model calls used by the sources *)

Definition has_user (u : UserId) (m : Machine) : bool :=
  match user m with
  | Some u' => String.eqb u' u
  | None => false
  end.

Definition is_free (m : Machine) : bool :=
  match user m with
  | Some _ => false
  | None => true
  end.

Definition has_id (i : MachineId) (m : Machine) : bool := String.eqb (id m) i.

(** [Machine.findOne({ user: u })] *)
Definition Machine_findOne (u : UserId) : Async (option Machine) :=
  fun w => (Resolved (List.find (has_user u) (machines w)), emit (EvFindOne u) w).

(** [Machine.count({ where: { user: null } })] *)
Definition Machine_count_free : Async Z :=
  fun w => (Resolved (Z.of_nat (length (List.filter is_free (machines w)))),
            emit EvCount w).

Definition with_endDate (e : Z) (m : Machine) : Machine :=
  {| id := id m; name := name m; type := type m; ip := ip m;
     username := username m; password := password m; domain := domain m;
     endDate := Some e; plazaport := plazaport m; user := user m |}.

Definition with_user (u : UserId) (m : Machine) : Machine :=
  {| id := id m; name := name m; type := type m; ip := ip m;
     username := username m; password := password m; domain := domain m;
     endDate := endDate m; plazaport := plazaport m; user := Some u |}.

(** A [datetime] attribute is stored to the second: the store drops the
    milliseconds of the date it is given. *)
Definition whole_seconds (e : Z) : Z := 1000 * (e / 1000).

(** [Machine.update({ id: i }, { endDate: e })] *)
Definition Machine_update_endDate (i : MachineId) (e : Z) : Async (list Machine) :=
  fun w =>
    let ms := map (fun m => if has_id i m then with_endDate (whole_seconds e) m else m)
                (machines w) in
    (Resolved (List.filter (has_id i) ms), emit (EvUpdate i e) (set_machines ms w)).

(** [Machine.destroy({ id: i })] *)
Definition Machine_destroy (i : MachineId) : Async unit :=
  fun w =>
    (Resolved tt,
     emit (EvDestroy i) (set_machines (List.filter (fun m => negb (has_id i m)) (machines w)) w)).

(** [ConfigService.get(key)] *)
Definition ConfigService_get (key : string) : Async Config :=
  fun w => (config_store w key, emit (EvConfigGet key) w).

(** [request.getAsync(addr)] *)
Definition request_getAsync (addr : Url) : Async Response :=
  fun w => (network w addr, emit (EvHttpGet addr) w).

Section MachineModel.

Variable rt : Runtime.

(** *** api/models/Machine.js *)

Definition setEndDate (this : Machine) (duration : Z) : Async (list Machine) :=
  fun w =>
    let now := clock w in
    let endDate := now + duration * 1000 in
    Machine_update_endDate (id this) endDate w.

Definition plazaAddr (this : Machine) : Url :=
  {| protocol := "http"; hostname := ip this; port := plazaport this;
     pathname := String.append "/sessions/" (username this) |}.

(** The [forEach] of [getSessions]: [sessions] is the array being filled.
    Each round draws an identifier, then reads [session[1]] and
    [session[3]]; a throw ends the loop and rejects the promise. *)
Fixpoint forEach_session (this : Machine) (elems : list json)
    (sessions : list Session.t) (w : World) : Outcome (list Session.t) * World :=
  match elems with
  | [] => (Resolved sessions, w)
  | session :: rest =>
      let ident := uuid_v4 rt (next_uuid w) in
      let w1 := set_next_uuid (S (next_uuid w)) w in
      match js_index session 1, js_index session 3 with
      | Some u, Some s =>
          forEach_session this rest
            (sessions ++ [ {| Session.id := ident;
                              Session.username := u;
                              Session.state := s;
                              Session.userId := user this |} ]) w1
      | _, _ => (Rejected TypeError, w1)
      end
  end.

(** The [.then] callback of [getSessions], applied to the response. *)
Definition parse_sessions (this : Machine) (res : Response) : Async (list Session.t) :=
  fun w =>
    match JSON_parse rt (body res) with
    | None => (Rejected SyntaxError, w)
    | Some parsed =>
        match js_prop parsed "data" with
        | Some (Json (JArr elems)) => forEach_session this elems [] w
        | _ => (Rejected TypeError, w)
        end
    end.

Definition getSessions (this : Machine) : Async (list Session.t) :=
  res <- request_getAsync (plazaAddr this) ;;
  parse_sessions this res.

(** The [.then] callback of [isSessionActive]. *)
Definition session_active (sessions : list Session.t) : bool :=
  match sessions with
  | first :: _ => strict_eq_string (Session.state first) "Active"
  | [] => false
  end.

Definition isSessionActive (this : Machine) : Async bool :=
  sessions <- getSessions this ;;
  resolve (session_active sessions).

End MachineModel.

(** *** api/services/MachineService.js *)

Inductive JsNull : Type := null.

(** [SET "user" = u ... WHERE m.id = sub] *)
Definition assign_user (u : UserId) (sub : MachineId) (table : list Machine)
  : list Machine :=
  map (fun m => if has_id sub m then with_user u m else m) table.

(** The statement sent by [getMachineForUser], run on its own:
    [UPDATE machine m SET "user" = u FROM (SELECT id FROM machine WHERE "user"
    IS NULL LIMIT 1 FOR UPDATE SKIP LOCKED) sub WHERE m.id = sub.id
    RETURNING *].  The [user] attribute is declared [unique]. *)
Definition claim_statement (u : UserId) (table : list Machine)
  : Outcome (list Machine) * list Machine :=
  match List.find is_free table with
  | None => (Resolved [], table)
  | Some sub =>
      if existsb (has_user u) table then (Rejected UniqueViolation, table)
      else
        let table' := assign_user u (id sub) table in
        (Resolved (List.filter (has_id (id sub)) table'), table')
  end.

(** [Machine.query({ text: ..., values: [u] }, callback)]: what the callback
    receives. *)
Definition Machine_query_claim (u : UserId) : Async (list Machine) :=
  fun w =>
    let (res, table') := claim_statement u (machines w) in
    (res, emit (EvClaimQuery u) (set_machines table' w)).

(** The delay a timer of the runtime really waits: a requested delay below
    1 ms or above 2^31 - 1 ms is replaced by 1 ms. *)
Definition timer_delay (d : Z) : Z :=
  if (1 <=? d) && (d <=? 2147483647) then d else 1.

(** [setTimeout(() => _shouldTerminateMachine(machine), d)] *)
Definition setTimeout (machine : Machine) (d : Z) (w : World) : World :=
  emit (EvSetTimeout d)
    (set_timers
       (timers w ++ [ {| armed_at := clock w; delay := timer_delay d; captured := machine |} ])
       w).

(** [endDate < now] between a nullable date and a date: [null] converts to 0. *)
Definition date_lt (endDate : option Z) (now : Z) : bool :=
  match endDate with
  | Some e => e <? now
  | None => 0 <? now
  end.

(** The loop of the [finally] handler in [_createMachine]: [i] is the loop
    index, [remaining] is [len - i], [arr] is [_awaitingMachines]. *)
Fixpoint remove_awaiting (machine : PromiseObj) (i remaining : nat)
    (arr : list PromiseObj) : list PromiseObj :=
  match remaining with
  | O => arr
  | S r =>
      match arr !! i with
      | Some p =>
          if Nat.eqb (pid p) (pid machine)
          then remove_awaiting machine (S i) r (delete i arr)
          else remove_awaiting machine (S i) r arr
      | None => remove_awaiting machine (S i) r arr
      end
  end.

Definition finally_handler (machine : PromiseObj) (w : World) : World :=
  set_awaitingMachines
    (remove_awaiting machine 0 (length (_awaitingMachines w)) (_awaitingMachines w)) w.

(** Settlement of one promise returned by [_createMachine]: the handler runs
    when the driver's promise settles, and the promise settles the same way. *)
Definition settle (machine : Outcome PromiseObj) (w : World) : Outcome Machine * World :=
  match machine with
  | Resolved p =>
      match settles p with
      | Pending => (Pending, w)
      | answer => (answer, finally_handler p w)
      end
  | Rejected e => (Rejected e, w)
  | Pending => (Pending, w)
  end.

Fixpoint settle_all (machines : list (Outcome PromiseObj)) (w : World)
  : list (Outcome Machine) * World :=
  match machines with
  | [] => ([], w)
  | machine :: rest =>
      let (answer, w1) := settle machine w in
      let (answers, w2) := settle_all rest w1 in
      (answer :: answers, w2)
  end.

Fixpoint first_rejection (answers : list (Outcome Machine)) : option Error :=
  match answers with
  | [] => None
  | Rejected e :: _ => Some e
  | _ :: rest => first_rejection rest
  end.

Fixpoint all_values (answers : list (Outcome Machine)) : option (list Machine) :=
  match answers with
  | [] => Some []
  | Resolved m :: rest =>
      match all_values rest with
      | Some ms => Some (m :: ms)
      | None => None
      end
  | _ :: _ => None
  end.

(** [Promise.all(machines)] *)
Definition Promise_all (answers : list (Outcome Machine)) : Outcome (list Machine) :=
  match first_rejection answers with
  | Some e => Rejected e
  | None =>
      match all_values answers with
      | Some ms => Resolved ms
      | None => Pending
      end
  end.

Definition is_null {A} (o : option A) : bool :=
  match o with
  | Some _ => false
  | None => true
  end.

Section MachineService.

Variable rt : Runtime.

(** The table [drivers], read at a key: its four own keys.  [None] is a
    look-up that gives nothing that [new] can construct ([undefined], or a
    method inherited from [Object.prototype]).  The one other key that
    [new] accepts is the inherited [constructor], which builds an object
    without any method; the properties below that depend on an unknown key
    leave that key out. *)
Definition drivers (key : string) : option Driver :=
  if String.eqb key "manual" then Some (ManualDriver rt)
  else if String.eqb key "aws" then Some (AWSDriver rt)
  else if String.eqb key "dummy" then Some (DummyDriver rt)
  else if String.eqb key "openstack" then Some (OpenstackDriver rt)
  else None.

Definition assert (condition : bool) (err : Error) : Async unit :=
  if condition then resolve tt else reject err.

(** [_createMachine()], up to the point where the [.then] callback has
    run: the value is the promise [machine] that the callback returns. *)
Definition _createMachine : Async PromiseObj :=
  config <- ConfigService_get "machinesName" ;;
  fun w =>
    match _driver w with
    | None => (Rejected TypeError, w)
    | Some d =>
        let (answer, table') := driver_createMachine d (machinesName config) (machines w) in
        let machine := {| pid := next_pid w; settles := answer |} in
        let w1 := emit (EvDriverCreate (machinesName config))
                    (set_machines table' (set_next_pid (S (next_pid w)) w)) in
        (Resolved machine,
         emit (EvAwaitingPush (pid machine))
           (set_awaitingMachines (_awaitingMachines w1 ++ [machine]) w1))
    end.

Definition _terminateMachine (machine : Machine) : Async unit :=
  _ <- Machine_destroy (id machine) ;;
  fun w =>
    match _driver w with
    | None => (Rejected TypeError, w)
    | Some d => (driver_destroyMachine d machine, emit (EvDriverDestroy machine) w)
    end.

(** The [while (i > 0)] loop of [_updateMachinesPool]. *)
Fixpoint create_loop (i : nat) (machines : list (Outcome PromiseObj)) (w : World)
  : list (Outcome PromiseObj) * World :=
  match i with
  | O => (machines, w)
  | S i' =>
      let (machine, w1) := _createMachine w in
      create_loop i' (machines ++ [machine]) w1
  end.

Definition _updateMachinesPool : Async (list Machine) :=
  _ <- (fun w => assert (negb (is_null (_driver w))) driverNotInitializedError w) ;;
  config <- ConfigService_get "machinePoolSize" ;;
  machineNbr <- Machine_count_free ;;
  fun w =>
    let i := (machinePoolSize config + Z.of_nat (length (_awaitingMachines w)))
             - machineNbr in
    let (machines, w1) := create_loop (Z.to_nat i) [] w in
    let (answers, w2) := settle_all machines w1 in
    (Promise_all answers, w2).

Definition initialize : Async unit :=
  _ <- (fun w => assert (is_null (_driver w)) driverAlreadyInitializedError w) ;;
  fun w =>
    match _initializing w with
    | Some p => (p, w)
    | None =>
        let (p, w1) :=
          (config <- ConfigService_get "iaas" ;;
           fun w =>
             match drivers (iaas config) with
             | None => (Rejected TypeError, w)
             | Some d =>
                 (_ <- (fun w => (driver_initialize d, emit EvDriverInitialize w)) ;;
                  fun w => (Resolved tt, forget _updateMachinesPool w))
                   (emit (EvDriverNew (iaas config)) (set_driver (Some d) w))
             end) w in
        (p, set_initializing (Some p) w1)
    end.

Definition getMachineForUser (user : User.t) : Async Machine :=
  _ <- (fun w => assert (negb (is_null (_driver w))) driverNotInitializedError w) ;;
  res <- Machine_findOne (User.id user) ;;
  match res with
  | None =>
      fun w =>
        match Machine_query_claim (User.id user) w with
        | (Rejected err, w1) => (Rejected err, w1)
        | (Pending, w1) => (Pending, w1)
        | (Resolved rows, w1) =>
            match rows with
            | row :: _ =>
                match _updateMachinesPool w1 with
                | (Resolved _, w2) => (Resolved row, w2)
                | (_, w2) => (Pending, w2)
                end
            | [] => (Rejected noMachineFoundError, w1)
            end
        end
  | Some machine => resolve machine
  end.

Definition _shouldTerminateMachine (machine : Machine) (w : World) : JsNull * World :=
  (null,
   forget
     (isActive <- isSessionActive rt machine ;;
      fun w =>
        if negb isActive then
          let now := clock w in
          if date_lt (endDate machine) now
          then (Resolved tt, forget (_terminateMachine machine) w)
          else (Resolved tt, w)
        else (Resolved tt, w)) w).

Definition increaseUsersMachineEndDate (user : User.t) : Async unit :=
  config <- ConfigService_get "sessionDuration" ;;
  found <- Machine_findOne (User.id user) ;;
  match found with
  | None => reject TypeError
  | Some machine =>
      _ <- setEndDate machine (sessionDuration config) ;;
      fun w => (Resolved tt, setTimeout machine (sessionDuration config * 1000) w)
  end.

Definition sessionOpen (user : User.t) : Async unit := increaseUsersMachineEndDate user.

Definition sessionEnded (user : User.t) : Async unit := increaseUsersMachineEndDate user.

(** The event loop runs the callback of the [n]-th armed timer, once its
    delay has elapsed. *)
Definition fire_timer (n : nat) (w : World) : option World :=
  match timers w !! n with
  | Some t =>
      if armed_at t + delay t <=? clock w
      then Some (snd (_shouldTerminateMachine (captured t) (set_timers (delete n (timers w)) w)))
      else None
  | None => None
  end.

End MachineService.

(** The callback that [getMachineForUser] gives to [Machine.query], applied
    to what the statement answered: [(err, res) => { if (err) return
    reject(err); if (res.rows.length) return _updateMachinesPool().then(()
    => resolve(res.rows[0])); return reject(noMachineFoundError); }].  The
    value is what becomes of the promise of [getMachineForUser]. *)
Definition query_callback (answer : Outcome (list Machine)) : Async Machine :=
  fun w =>
    match answer with
    | Rejected err => (Rejected err, w)
    | Pending => (Pending, w)
    | Resolved rows =>
        match rows with
        | row :: _ =>
            match _updateMachinesPool w with
            | (Resolved _, w2) => (Resolved row, w2)
            | (_, w2) => (Pending, w2)
            end
        | [] => (Rejected noMachineFoundError, w)
        end
    end.

(** ** The claim statement under concurrent callers

    Several calls of [getMachineForUser] that found no machine for their user
    have each sent the statement of [claim_statement]; the database runs them
    as concurrent transactions.  A transaction first runs its sub-select,
    which takes a row lock on one free row that no other transaction holds
    ([FOR UPDATE SKIP LOCKED], [LIMIT 1]; which one is not determined), or
    finds none; it then updates the row it holds, returns it and releases the
    lock.  Steps of different transactions interleave freely. *)
Module ClaimRace.

Inductive Tx : Type :=
  | Issued (u : UserId)
  | Locking (u : UserId) (sub : MachineId)
  | Finished (u : UserId) (res : Outcome (list Machine)).

Definition caller (tx : Tx) : UserId :=
  match tx with
  | Issued u | Locking u _ | Finished u _ => u
  end.

Definition holds (tx : Tx) : option MachineId :=
  match tx with
  | Locking _ sub => Some sub
  | _ => None
  end.

(** Rows locked by a transaction in progress. *)
Definition locked_rows (txs : list Tx) : list MachineId := omap holds txs.

Definition Config : Type := (list Machine * list Tx)%type.

Inductive step : Config -> Config -> Prop :=
  | step_select table txs i u m :
      txs !! i = Some (Issued u) ->
      m ∈ table -> is_free m = true -> id m ∉ locked_rows txs ->
      step (table, txs) (table, <[i := Locking u (id m)]> txs)
  | step_skip table txs i u :
      txs !! i = Some (Issued u) ->
      (forall m, m ∈ table -> is_free m = true -> id m ∈ locked_rows txs) ->
      step (table, txs) (table, <[i := Finished u (Resolved [])]> txs)
  | step_update table txs i u sub :
      txs !! i = Some (Locking u sub) ->
      existsb (has_user u) table = false ->
      step (table, txs)
           (assign_user u sub table,
            <[i := Finished u (Resolved (List.filter (has_id sub) (assign_user u sub table)))]> txs)
  | step_violation table txs i u sub :
      txs !! i = Some (Locking u sub) ->
      existsb (has_user u) table = true ->
      step (table, txs) (table, <[i := Finished u (Rejected UniqueViolation)]> txs).

Definition finished (tx : Tx) : bool :=
  match tx with
  | Finished _ _ => true
  | _ => false
  end.

(** The row that the callback of [getMachineForUser] hands on
    ([res.rows[0]] when [res.rows.length] is not 0). *)
Definition won (tx : Tx) : option Machine :=
  match tx with
  | Finished _ (Resolved (row :: _)) => Some row
  | _ => None
  end.

(** The callback rejects with [noMachineFoundError]: no error and no row. *)
Definition starved (tx : Tx) : bool :=
  match tx with
  | Finished _ (Resolved []) => true
  | _ => false
  end.

(** What the statement answered to its callback, once it has finished. *)
Definition answer (tx : Tx) : Outcome (list Machine) :=
  match tx with
  | Finished _ res => res
  | _ => Pending
  end.

(** Work left: two steps for an issued statement, one for a locking one. *)
Definition work (tx : Tx) : nat :=
  match tx with
  | Issued _ => 2
  | Locking _ _ => 1
  | Finished _ _ => 0
  end.

(** What a finished transaction may hold, given the table. *)
Definition settled_ok (table : list Machine) (tx : Tx) : Prop :=
  match tx with
  | Finished u (Resolved []) => True
  | Finished u (Resolved (row :: _)) => row ∈ table /\ user row = Some u
  | Finished _ _ => False
  | _ => True
  end.

(** The row handed on is one of the rows that were free at the start. *)
Definition from_pool (table0 : list Machine) (tx : Tx) : Prop :=
  match won tx with
  | Some row => exists m0, m0 ∈ table0 /\ is_free m0 = true /\ id m0 = id row
  | None => True
  end.

(** Invariant of the executions that start from [table0] with one
    statement issued per element of [users]. *)
Record Inv (table0 : list Machine) (users : list UserId)
    (table : list Machine) (txs : list Tx) : Prop := {
  inv_ids : map id table = map id table0;
  inv_callers : map caller txs = users;
  inv_lock : forall k u s, txs !! k = Some (Locking u s) ->
             exists m, m ∈ table /\ id m = s /\ is_free m = true;
  inv_excl : forall k1 k2 u1 u2 s,
             txs !! k1 = Some (Locking u1 s) -> txs !! k2 = Some (Locking u2 s) -> k1 = k2;
  inv_count : (length (List.filter is_free table) + length (omap won txs)
               = length (List.filter is_free table0))%nat;
  inv_settled : Forall (settled_ok table) txs;
  inv_free : forall m, m ∈ table -> is_free m = true -> m ∈ table0;
  inv_pool : Forall (from_pool table0) txs;
  inv_owner : forall m u, m ∈ table -> user m = Some u ->
              (exists m0, m0 ∈ table0 /\ user m0 = Some u)
              \/ (exists k res, txs !! k = Some (Finished u res));
  inv_starved : (exists k u, txs !! k = Some (Finished u (Resolved []))) ->
                forall m, m ∈ table -> is_free m = true ->
                exists k u, txs !! k = Some (Locking u (id m))
}.
Definition total_work (txs : list Tx) : nat := sum_list_with work txs.

End ClaimRace.

(** ** Reading the log *)

Definition is_creation (e : Event) : bool :=
  match e with
  | EvDriverCreate _ => true
  | _ => false
  end.

Definition is_push (e : Event) : bool :=
  match e with
  | EvAwaitingPush _ => true
  | _ => false
  end.

(** Removal of a record, or teardown asked of the driver. *)
Definition is_destruction (e : Event) : bool :=
  match e with
  | EvDestroy _ | EvDriverDestroy _ => true
  | _ => false
  end.

Definition is_claim (e : Event) : bool :=
  match e with
  | EvClaimQuery _ => true
  | _ => false
  end.

(** What one run of the callback of [_createMachine] logs, most recent
    first, when it creates the promise numbered [p]. *)
Definition dispatch_events (machineName : string) (p : nat) : list Event :=
  [EvAwaitingPush p; EvDriverCreate machineName; EvConfigGet "machinesName"].

(** The log of [k] such runs, the first of which creates promise [p]. *)
Fixpoint dispatched (machineName : string) (p k : nat) : list Event :=
  match k with
  | O => []
  | S k' => dispatched machineName (S p) k' ++ dispatch_events machineName p
  end.

(** The record stored under an id. *)
Definition stored (i : MachineId) (w : World) : option Machine :=
  List.find (has_id i) (machines w).

(** Parts of the world that the pool code never writes. *)
Definition service_frame (w w1 : World) : Prop :=
  _driver w1 = _driver w /\ _initializing w1 = _initializing w
  /\ timers w1 = timers w /\ clock w1 = clock w
  /\ config_store w1 = config_store w /\ network w1 = network w
  /\ next_uuid w1 = next_uuid w.

(** ** Concrete data used to exercise the model *)
Module Scenario.

Definition quote : string := String (Ascii.ascii_of_nat 34) EmptyString.

(** The text [{ data: [] }] with its quotes, and three more payloads. *)
Definition body_no_session : string :=
  ("{" ++ quote ++ "data" ++ quote ++ ":[]}")%string.
Definition body_null_element : string :=
  ("{" ++ quote ++ "data" ++ quote ++ ":[null]}")%string.
Definition body_second_active : string :=
  ("{" ++ quote ++ "data" ++ quote ++ ":[[0," ++ quote ++ "bob" ++ quote ++ ",1,"
      ++ quote ++ "Disconnected" ++ quote ++ "],[2," ++ quote ++ "bob" ++ quote
      ++ ",3," ++ quote ++ "Active" ++ quote ++ "]]}")%string.
Definition body_garbage : string := "<html>".

(** [JSON.parse] on the payloads above. *)
Definition parse (text : string) : option json :=
  if String.eqb text body_no_session then Some (JObj [("data", JArr [])])
  else if String.eqb text body_null_element then Some (JObj [("data", JArr [JNull])])
  else if String.eqb text body_second_active then
    Some (JObj [("data",
            JArr [JArr [JNum "0"; JStr "bob"; JNum "1"; JStr "Disconnected"];
                  JArr [JNum "2"; JStr "bob"; JNum "3"; JStr "Active"]])])
  else None.

Definition fresh (machineName : string) : Machine :=
  {| id := machineName; name := machineName; type := "dummy"; ip := "10.0.0.9";
     username := "Administrator"; password := "secret"; domain := "";
     endDate := None; plazaport := 9090; user := None |}.

(** A driver that provisions at once and records the machine. *)
Definition dummy : Driver :=
  {| driver_name := "dummy";
     driver_initialize := Resolved tt;
     driver_createMachine := fun machineName table =>
       (Resolved (fresh machineName), table ++ [fresh machineName]);
     driver_destroyMachine := fun _ => Resolved tt |}.

(** A driver whose provisioning call never comes back. *)
Definition stalled : Driver :=
  {| driver_name := "stalled";
     driver_initialize := Resolved tt;
     driver_createMachine := fun _ table => (Pending, table);
     driver_destroyMachine := fun _ => Resolved tt |}.

Definition rt (d : Driver) : Runtime :=
  {| JSON_parse := parse;
     uuid_v4 := fun n => String.append "session-" (index_key n);
     ManualDriver := d; AWSDriver := d; DummyDriver := d; OpenstackDriver := d |}.

Definition settings : Config :=
  {| iaas := "dummy"; machinesName := "spare"; machinePoolSize := 1;
     sessionDuration := 100 |}.

Definition alice : User.t := {| User.id := "alice" |}.
Definition bob : User.t := {| User.id := "bob" |}.

Definition m1 : Machine :=
  {| id := "m1"; name := "spare"; type := "dummy"; ip := "10.0.0.1";
     username := "Administrator"; password := "secret"; domain := "";
     endDate := None; plazaport := 9090; user := None |}.

Definition m2 : Machine :=
  {| id := "m2"; name := "spare"; type := "dummy"; ip := "10.0.0.2";
     username := "Administrator"; password := "secret"; domain := "";
     endDate := Some 1000; plazaport := 9090; user := Some "bob" |}.

(** A broker whose driver [d] is initialised, at time [now], with the given
    table; every agent answers [text]. *)
Definition world (d : Driver) (table : list Machine) (now : Z) (text : string) : World :=
  {| machines := table; _driver := Some d; _initializing := Some (Resolved tt);
     _awaitingMachines := []; timers := []; clock := now;
     next_pid := 0; next_uuid := 0;
     config_store := fun _ => Resolved settings;
     network := fun _ => Resolved {| body := text |};
     log := [] |}.

(** Two creations still pending, a desired pool size of 0, one spare. *)
Definition settings_zero : Config :=
  {| iaas := "dummy"; machinesName := "spare"; machinePoolSize := 0;
     sessionDuration := 100 |}.

Definition world_in_flight : World :=
  {| machines := [m1]; _driver := Some dummy; _initializing := Some (Resolved tt);
     _awaitingMachines := [ {| pid := 0; settles := Pending |};
                            {| pid := 1; settles := Pending |} ];
     timers := []; clock := 0; next_pid := 2; next_uuid := 0;
     config_store := fun _ => Resolved settings_zero;
     network := fun _ => Resolved {| body := body_no_session |};
     log := [] |}.

(** Alice and Carol race for the single free machine [m1]: Alice's
    sub-select locks it, Carol's finds nothing, Alice's update ends. *)
Definition race_start : ClaimRace.Config :=
  ([m1], [ClaimRace.Issued "alice"; ClaimRace.Issued "carol"]).

Definition race_end : ClaimRace.Config :=
  (assign_user "alice" "m1" [m1],
   [ClaimRace.Finished "alice" (Resolved [with_user "alice" m1]);
    ClaimRace.Finished "carol" (Resolved [])]).

End Scenario.

(** ** The read-only entry points of the service *)

(** A call that may throw before it returns. *)
Inductive Call (A : Type) : Type :=
  | Throws (e : Error)
  | Returns (a : A).
Arguments Throws {A} e.
Arguments Returns {A} a.

(** [driverName()]: [_driver.name()], a [TypeError] when no driver is set. *)
Definition driverName (w : World) : Call string :=
  match _driver w with
  | None => Throws TypeError
  | Some d => Returns (driver_name d)
  end.

(** What [getServer] resolves with; only [status] is read. *)
Record ServerStatus : Type := { status : string }.

(** [machine.toObject()] with its [status] attribute set. *)
Record MachineObject : Type := {
  object : Machine;
  object_status : string
}.

Fixpoint first_rejection_of {A} (answers : list (Outcome A)) : option Error :=
  match answers with
  | [] => None
  | Rejected e :: _ => Some e
  | _ :: rest => first_rejection_of rest
  end.

Fixpoint all_values_of {A} (answers : list (Outcome A)) : option (list A) :=
  match answers with
  | [] => Some []
  | Resolved a :: rest =>
      match all_values_of rest with
      | Some values => Some (a :: values)
      | None => None
      end
  | _ :: _ => None
  end.

(** [Promise.all] on promises of any type. *)
Definition Promise_all_of {A} (answers : list (Outcome A)) : Outcome (list A) :=
  match first_rejection_of answers with
  | Some e => Rejected e
  | None =>
      match all_values_of answers with
      | Some values => Resolved values
      | None => Pending
      end
  end.

Definition has_type (t : string) (m : Machine) : bool := String.eqb (type m) t.

Section Listing.

(** [driver.getServer(id)], a method of the classes under [api/drivers/]. *)
Variable getServer : Driver -> MachineId -> Outcome ServerStatus.

(** The callback given to [machines.map] in [machines()]. *)
Definition with_status (d : Driver) (machine : Machine) : Outcome MachineObject :=
  match getServer d (id machine) with
  | Resolved server => Resolved {| object := machine; object_status := status server |}
  | Rejected e => Rejected e
  | Pending => Pending
  end.

(** [machines()]: [_driver.name()] is evaluated before [Machine.find] is
    called, so a missing driver throws; the function only reads. *)
Definition machines_ (w : World) : Call (Outcome (list MachineObject)) :=
  match _driver w with
  | None => Throws TypeError
  | Some d =>
      let found := List.filter (has_type (driver_name d)) (machines w) in
      Returns (Promise_all_of (map (with_status d) found))
  end.

End Listing.

(** ** assets/app/user/model.js: the computed properties *)
Module UserModel.

(** The attributes read by the computed properties; [None] is null or
    undefined. *)
Record t : Type := {
  email : option string;
  isAdmin : option bool;
  firstName : option string;
  lastName : option string
}.

(** Truthiness of a string attribute. *)
Definition truthy (a : option string) : bool :=
  match a with
  | Some s => negb (String.eqb s "")
  | None => false
  end.

Definition text (a : option string) : string :=
  match a with
  | Some s => s
  | None => ""
  end.

Definition fullName (this : t) : string :=
  if truthy (firstName this) && truthy (lastName this)
  then String.append (text (firstName this)) (String.append " " (text (lastName this)))
  else if truthy (email this) then text (email this) else "Unknown user".

Definition isNotAdmin (this : t) : bool :=
  match isAdmin this with
  | Some b => negb b
  | None => true
  end.

Definition type (this : t) : string :=
  match isAdmin this with
  | Some true => "Administrator"
  | _ => "Regular user"
  end.

End UserModel.

(** ** More data to exercise the model *)
Module Cases.

(** A driver whose own [initialize] fails. *)
Definition broken : Driver :=
  {| driver_name := "broken";
     driver_initialize := Rejected (ExternalError "no credentials");
     driver_createMachine := fun _ table => (Pending, table);
     driver_destroyMachine := fun _ => Resolved tt |}.

(** A driver whose provisioning always fails. *)
Definition failing : Driver :=
  {| driver_name := "failing";
     driver_initialize := Resolved tt;
     driver_createMachine := fun _ table => (Rejected (ExternalError "quota"), table);
     driver_destroyMachine := fun _ => Resolved tt |}.

(** A process that has not called [initialize] yet. *)
Definition fresh_world (table : list Machine) (cfg : string -> Outcome Config) : World :=
  {| machines := table; _driver := None; _initializing := None;
     _awaitingMachines := []; timers := []; clock := 0;
     next_pid := 0; next_uuid := 0;
     config_store := cfg;
     network := fun _ => Resolved {| body := Scenario.body_no_session |};
     log := [] |}.

Definition settings_unknown : Config :=
  {| iaas := "azure"; machinesName := "spare"; machinePoolSize := 1;
     sessionDuration := 100 |}.

Definition settings_three : Config :=
  {| iaas := "dummy"; machinesName := "spare"; machinePoolSize := 3;
     sessionDuration := 100 |}.

Definition m3 : Machine :=
  {| id := "m3"; name := "spare"; type := "manual"; ip := "10.0.0.3";
     username := "Administrator"; password := "secret"; domain := "";
     endDate := None; plazaport := 9090; user := None |}.

Definition server_status (d : Driver) (i : MachineId) : Outcome ServerStatus :=
  if String.eqb i "m3" then Rejected (ExternalError "gone")
  else Resolved {| status := "running" |}.

(** The machine name cannot be read; the other keys can. *)
Definition config_no_name (key : string) : Outcome Config :=
  if String.eqb key "machinesName" then Rejected (ExternalError "no such key")
  else Resolved Scenario.settings.

Definition world_no_name : World :=
  {| machines := [Scenario.m2]; _driver := Some Scenario.dummy;
     _initializing := Some (Resolved tt);
     _awaitingMachines := []; timers := []; clock := 0;
     next_pid := 0; next_uuid := 0;
     config_store := config_no_name;
     network := fun _ => Resolved {| body := Scenario.body_no_session |};
     log := [] |}.

(** Alice sends the statement twice (two calls that both found no machine
    for her) and Carol once, on two free machines: Alice's first statement
    locks [m1], her second one locks [m3], Carol's finds every free row
    locked; Alice's first update ends, her second one breaks the uniqueness
    of [user]. *)
Definition same_user_start : ClaimRace.Config :=
  ([Scenario.m1; m3],
   [ClaimRace.Issued "alice"; ClaimRace.Issued "alice"; ClaimRace.Issued "carol"]).

Definition same_user_end : ClaimRace.Config :=
  (assign_user "alice" "m1" [Scenario.m1; m3],
   [ClaimRace.Finished "alice" (Resolved [with_user "alice" Scenario.m1]);
    ClaimRace.Finished "alice" (Rejected UniqueViolation);
    ClaimRace.Finished "carol" (Resolved [])]).

(** Alice and Carol race for two free machines: Alice's sub-select locks
    [m1], Carol's skips it and locks [m3], Carol's update ends first, then
    Alice's. *)
Definition pair_start : ClaimRace.Config :=
  ([Scenario.m1; m3], [ClaimRace.Issued "alice"; ClaimRace.Issued "carol"]).

Definition pair_end : ClaimRace.Config :=
  (assign_user "alice" "m1" (assign_user "carol" "m3" [Scenario.m1; m3]),
   [ClaimRace.Finished "alice" (Resolved [with_user "alice" Scenario.m1]);
    ClaimRace.Finished "carol" (Resolved [with_user "carol" m3])]).

Definition grace : UserModel.t :=
  {| UserModel.email := None; UserModel.isAdmin := Some false;
     UserModel.firstName := Some "Grace"; UserModel.lastName := Some "Hopper" |}.

Definition ada : UserModel.t :=
  {| UserModel.email := Some "ada@example.org"; UserModel.isAdmin := Some true;
     UserModel.firstName := Some "Ada"; UserModel.lastName := Some "" |}.

End Cases.

(** * Properties *)

(** ** Bookkeeping on worlds *)

Lemma then_Resolved {A B} (p : Async A) (f : A -> Async B) w a w1 :
  p w = (Resolved a, w1) -> then_ p f w = f a w1.
Proof. intros H. unfold then_. now rewrite H. Qed.

Lemma then_Rejected {A B} (p : Async A) (f : A -> Async B) w e w1 :
  p w = (Rejected e, w1) -> then_ p f w = (Rejected e, w1).
Proof. intros H. unfold then_. now rewrite H. Qed.

(** ** Session probe ([getSessions], [isSessionActive]) *)

Section ProbeFacts.

Variable rt : Runtime.

(** The loop only draws identifiers: table, log and the rest are kept. *)
Lemma forEach_session_world this elems acc w o w1 :
  forEach_session rt this elems acc w = (o, w1) ->
  exists n, w1 = set_next_uuid n w.
Proof.
  revert acc w. induction elems as [|session rest IH]; intros acc w H; simpl in H.
  - inversion H; subst. exists (next_uuid w1). now destruct w1.
  - destruct (js_index session 1), (js_index session 3);
      try (inversion H; subst; eexists; reflexivity).
    apply IH in H. destruct H as [n ->]. exists n. reflexivity.
Qed.

Lemma getSessions_world this w o w1 :
  getSessions rt this w = (o, w1) ->
  exists n, w1 = set_next_uuid n (emit (EvHttpGet (plazaAddr this)) w).
Proof.
  unfold getSessions, then_, request_getAsync. intros H.
  destruct (network w (plazaAddr this)) as [res|e|].
  - unfold parse_sessions in H.
    destruct (JSON_parse rt (body res)) as [parsed|].
    + destruct (js_prop parsed "data") as [[|[]]|];
        try (inversion H; subst; eexists; now destruct w).
      apply forEach_session_world in H. destruct H as [n ->]. now exists n.
    + inversion H; subst. eexists; now destruct w.
  - inversion H; subst. eexists; now destruct w.
  - inversion H; subst. eexists; now destruct w.
Qed.

Lemma isSessionActive_world this w o w1 :
  isSessionActive rt this w = (o, w1) ->
  exists n, w1 = set_next_uuid n (emit (EvHttpGet (plazaAddr this)) w).
Proof.
  unfold isSessionActive, then_, resolve. intros H.
  destruct (getSessions rt this w) as [[s|e|] w2] eqn:E;
    inversion H; subst; eapply getSessions_world; eassumption.
Qed.

Lemma js_index_not_null e k : e <> JNull -> exists v, js_index e k = Some v.
Proof. destruct e; simpl; intros H; try congruence; eexists; reflexivity. Qed.

Lemma forEach_session_records this elems : forall acc w,
  Forall (fun e => e <> JNull) elems ->
  exists sessions w1,
    forEach_session rt this elems acc w = (Resolved (acc ++ sessions), w1)
    /\ length sessions = length elems
    /\ forall k e, elems !! k = Some e ->
         exists s, sessions !! k = Some s
                   /\ js_index e 1 = Some (Session.username s)
                   /\ js_index e 3 = Some (Session.state s).
Proof.
  induction elems as [|session rest IH]; intros acc w Hnn.
  - exists [], w. simpl. rewrite app_nil_r. repeat split. intros k e Hk.
    now rewrite lookup_nil in Hk.
  - inversion Hnn as [|? ? Hs Hrest]; subst. simpl.
    destruct (js_index_not_null session 1 Hs) as [u Hu].
    destruct (js_index_not_null session 3 Hs) as [st Hst].
    rewrite Hu, Hst.
    match goal with
    | |- context [forEach_session rt this rest ?a ?w'] =>
        destruct (IH a w' Hrest) as (sessions & w1 & Hrun & Hlen & Hrec)
    end.
    eexists (_ :: sessions), w1. split; [|split].
    + rewrite Hrun. now rewrite <- app_assoc.
    + simpl. now rewrite Hlen.
    + intros [|k] e Hk; simpl in Hk.
      * inversion Hk; subst. eexists. split; [reflexivity|]. simpl. now split.
      * apply Hrec in Hk. exact Hk.
Qed.

Lemma forEach_session_null this elems : forall acc w,
  JNull ∈ elems ->
  exists w1, forEach_session rt this elems acc w = (Rejected TypeError, w1).
Proof.
  induction elems as [|session rest IH]; intros acc w Hin.
  - now apply not_elem_of_nil in Hin.
  - apply elem_of_cons in Hin.
    destruct session; simpl; try (eexists; reflexivity);
      (destruct Hin as [Heq|Hin]; [discriminate Heq | now apply IH]).
Qed.

End ProbeFacts.

Section ProbeClaims.

Variable rt : Runtime.

(** C8 (as amended): on a response that arrived, [getSessions] rejects when
    the body is not parseable JSON; when the body parses to a value whose
    [data] is an array without [null] element, it resolves with one record
    per element, in order, whose username is the element's index 1 and whose
    state is its index 3; any other parseable body makes it reject too. *)
Theorem getSessions_payload (this : Machine) (w : World) (res : Response) :
  network w (plazaAddr this) = Resolved res ->
  (JSON_parse rt (body res) = None ->
     exists w1, getSessions rt this w = (Rejected SyntaxError, w1))
  /\ (forall parsed elems,
        JSON_parse rt (body res) = Some parsed ->
        js_prop parsed "data" = Some (Json (JArr elems)) ->
        Forall (fun e => e <> JNull) elems ->
        exists sessions w1,
          getSessions rt this w = (Resolved sessions, w1)
          /\ length sessions = length elems
          /\ forall k e, elems !! k = Some e ->
               exists s, sessions !! k = Some s
                         /\ js_index e 1 = Some (Session.username s)
                         /\ js_index e 3 = Some (Session.state s))
  /\ (forall parsed,
        JSON_parse rt (body res) = Some parsed ->
        (forall elems, js_prop parsed "data" = Some (Json (JArr elems)) ->
                       JNull ∈ elems) ->
        exists w1, getSessions rt this w = (Rejected TypeError, w1)).
Proof.
  intros Hnet.
  assert (Hget : getSessions rt this w
                 = parse_sessions rt this res (emit (EvHttpGet (plazaAddr this)) w)).
  { unfold getSessions. apply then_Resolved. unfold request_getAsync. now rewrite Hnet. }
  rewrite Hget. unfold parse_sessions. simpl. split; [|split].
  - intros ->. eexists; reflexivity.
  - intros parsed elems -> -> Hnn.
    destruct (forEach_session_records rt this elems []
                (emit (EvHttpGet (plazaAddr this)) w) Hnn)
      as (sessions & w1 & Hrun & Hlen & Hrec).
    exists sessions, w1. now rewrite Hrun.
  - intros parsed -> Hbad.
    destruct (js_prop parsed "data") as [[|[| | | |elems|]]|] eqn:E;
      try (eexists; reflexivity).
    apply forEach_session_null. now apply Hbad.
Qed.

Lemma strict_eq_string_true v text :
  strict_eq_string v text = true <-> v = Json (JStr text).
Proof.
  destruct v as [|[]]; simpl; split; intros H; try discriminate H.
  - apply String.eqb_eq in H. now subst.
  - inversion H; subst. apply String.eqb_refl.
Qed.

(** C10: on the list of sessions the probe returned, [isSessionActive]
    answers true exactly when the list is not empty and the state of its
    first session is the string Active; with any other first session the
    answer is false whatever the later sessions are. *)
Theorem isSessionActive_first_session (this : Machine) (w w1 : World)
    (sessions : list Session.t) :
  getSessions rt this w = (Resolved sessions, w1) ->
  exists b,
    isSessionActive rt this w = (Resolved b, w1)
    /\ (b = true <->
        exists first rest,
          sessions = first :: rest /\ Session.state first = Json (JStr "Active"))
    /\ (forall first rest,
          sessions = first :: rest ->
          Session.state first <> Json (JStr "Active") -> b = false).
Proof.
  intros Hget. exists (session_active sessions). split; [|split].
  - unfold isSessionActive. now rewrite (then_Resolved _ _ _ _ _ Hget).
  - destruct sessions as [|first rest]; simpl.
    + split; [discriminate|]. intros (f & r & Heq & _). discriminate Heq.
    + rewrite strict_eq_string_true. split.
      * intros H. now exists first, rest.
      * intros (f & r & Heq & Hst). now inversion Heq; subst.
  - intros first rest -> Hne. simpl.
    destruct (strict_eq_string (Session.state first) "Active") eqn:E; [|reflexivity].
    apply strict_eq_string_true in E. contradiction.
Qed.

(** C9: when the probe fails ([getSessions] rejects), the deferred check
    returns null and destroys nothing: the table is the one before the
    check and the only call logged is the HTTP request of the probe. *)
Theorem shouldTerminate_probe_failure (machine : Machine) (w w1 : World) (e : Error) :
  getSessions rt machine w = (Rejected e, w1) ->
  _shouldTerminateMachine rt machine w = (null, w1)
  /\ machines w1 = machines w
  /\ log w1 = EvHttpGet (plazaAddr machine) :: log w.
Proof.
  intros Hget. split.
  - unfold _shouldTerminateMachine, forget, isSessionActive.
    rewrite (then_Rejected _ _ _ _ _ (then_Rejected _ _ _ _ _ Hget)). reflexivity.
  - apply getSessions_world in Hget. destruct Hget as [n ->]. now split.
Qed.

End ProbeClaims.

(** ** Pool reconciler ([_createMachine], [_updateMachinesPool]) *)

Lemma service_frame_refl w : service_frame w w.
Proof. now repeat split. Qed.

Lemma service_frame_trans w w1 w2 :
  service_frame w w1 -> service_frame w1 w2 -> service_frame w w2.
Proof.
  unfold service_frame. intros (?&?&?&?&?&?&?) (?&?&?&?&?&?&?).
  repeat split; congruence.
Qed.

Lemma _createMachine_frame w :
  service_frame w (snd (_createMachine w))
  /\ exists delta, log (snd (_createMachine w)) = delta ++ log w
                   /\ List.filter is_destruction delta = []
                   /\ List.filter is_claim delta = [].
Proof.
  unfold _createMachine, then_, ConfigService_get.
  destruct (config_store w "machinesName") as [cfg|e|]; simpl;
    try (split; [now repeat split | now exists [EvConfigGet "machinesName"]]).
  destruct (_driver w) as [d|] eqn:Hd; simpl;
    try (split; [now repeat split | now exists [EvConfigGet "machinesName"]]).
  destruct (driver_createMachine d (machinesName cfg) (machines w)) as [answer table'].
  simpl. split; [now repeat split|].
  now exists (dispatch_events (machinesName cfg) (next_pid w)).
Qed.

Lemma create_loop_frame k : forall acc w,
  service_frame w (snd (create_loop k acc w))
  /\ exists delta, log (snd (create_loop k acc w)) = delta ++ log w
                   /\ List.filter is_destruction delta = []
                   /\ List.filter is_claim delta = [].
Proof.
  induction k as [|k IH]; intros acc w; simpl.
  - split; [apply service_frame_refl | now exists []].
  - destruct (_createMachine_frame w) as (Hf & delta & Hlog & Hd & Hc).
    destruct (_createMachine w) as [machine w1]. simpl in *.
    destruct (IH (acc ++ [machine]) w1) as (Hf' & delta' & Hlog' & Hd' & Hc').
    split; [eapply service_frame_trans; eassumption|].
    exists (delta' ++ delta). rewrite Hlog', Hlog, app_assoc.
    rewrite !List.filter_app, Hd, Hd', Hc, Hc'. now repeat split.
Qed.

Lemma settle_world machine w :
  exists l, snd (settle machine w) = set_awaitingMachines l w.
Proof.
  destruct machine as [p|e|]; simpl;
    try (exists (_awaitingMachines w); now destruct w).
  destruct (settles p); simpl;
    try (eexists; reflexivity).
  exists (_awaitingMachines w); now destruct w.
Qed.

Lemma settle_all_world machines : forall w,
  exists l, snd (settle_all machines w) = set_awaitingMachines l w.
Proof.
  induction machines as [|machine rest IH]; intros w; simpl.
  - exists (_awaitingMachines w); now destruct w.
  - destruct (settle_world machine w) as [l Hl].
    destruct (settle machine w) as [answer w1]. simpl in Hl. subst w1.
    destruct (IH (set_awaitingMachines l w)) as [l' Hl'].
    destruct (settle_all rest (set_awaitingMachines l w)) as [answers w2].
    simpl in *. subst w2. now exists l'.
Qed.

Lemma _updateMachinesPool_frame w :
  service_frame w (snd (_updateMachinesPool w))
  /\ exists delta, log (snd (_updateMachinesPool w)) = delta ++ log w
                   /\ List.filter is_destruction delta = []
                   /\ List.filter is_claim delta = [].
Proof.
  unfold _updateMachinesPool, then_, assert, resolve, reject,
    ConfigService_get, Machine_count_free.
  destruct (is_null (_driver w)); simpl;
    try (split; [apply service_frame_refl | now exists []]).
  destruct (config_store w "machinePoolSize") as [cfg|e|]; simpl;
    try (split; [now repeat split | now exists [EvConfigGet "machinePoolSize"]]).
  match goal with
  | |- context [create_loop ?k ?acc ?w0] =>
      destruct (create_loop_frame k acc w0) as (Hf & delta & Hlog & Hd & Hc);
      destruct (create_loop k acc w0) as [ms w1]
  end.
  destruct (settle_all_world ms w1) as [l Hl].
  destruct (settle_all ms w1) as [answers w2]. simpl in *. subst w2. simpl.
  split.
  - destruct Hf as (?&?&?&?&?&?&?). now repeat split.
  - exists (delta ++ [EvCount; EvConfigGet "machinePoolSize"]).
    rewrite Hlog, <- app_assoc. rewrite !List.filter_app, Hd, Hc. now repeat split.
Qed.

Lemma dispatched_counts machineName k : forall p,
  length (List.filter is_creation (dispatched machineName p k)) = k
  /\ length (List.filter is_push (dispatched machineName p k)) = k
  /\ List.filter is_destruction (dispatched machineName p k) = [].
Proof.
  induction k as [|k IH]; intros p; simpl; [now repeat split|].
  destruct (IH (S p)) as (Hc & Hp & Hd).
  rewrite !List.filter_app, !length_app, Hc, Hp, Hd. simpl. repeat split; lia.
Qed.

Lemma create_loop_dispatch d naming k : forall acc w,
  _driver w = Some d ->
  config_store w "machinesName" = Resolved naming ->
  log (snd (create_loop k acc w))
    = dispatched (machinesName naming) (next_pid w) k ++ log w
  /\ length (_awaitingMachines (snd (create_loop k acc w)))
     = (length (_awaitingMachines w) + k)%nat.
Proof.
  induction k as [|k IH]; intros acc w Hd Hcfg; simpl.
  - split; [reflexivity | lia].
  - unfold _createMachine, then_, ConfigService_get. rewrite Hcfg. simpl. rewrite Hd.
    destruct (driver_createMachine d (machinesName naming) (machines w))
      as [answer table'].
    match goal with
    | |- context [create_loop k ?a ?w1] =>
        destruct (IH a w1) as (Hlog & Hlen); [exact Hd | exact Hcfg |]
    end.
    rewrite Hlog, Hlen. simpl. rewrite length_app. simpl.
    split; [now rewrite <- app_assoc | lia].
Qed.

(** C5 (as amended): with a driver set and the configuration readable, one
    reconcile pass dispatches exactly max(0, desiredPoolSize + inFlightCount -
    freeCount) creations, pushes each on the in-flight list, and asks for no
    removal or teardown; when desiredPoolSize is 0 and freeCount is at least
    inFlightCount it dispatches none and leaves the table and the in-flight
    list as they were. *)
Theorem reconcile_dispatches_deficit (w : World) (d : Driver) (pool naming : Config) :
  _driver w = Some d ->
  config_store w "machinePoolSize" = Resolved pool ->
  config_store w "machinesName" = Resolved naming ->
  let desiredPoolSize := machinePoolSize pool in
  let inFlightCount := Z.of_nat (length (_awaitingMachines w)) in
  let freeCount := Z.of_nat (length (List.filter is_free (machines w))) in
  let w' := snd (_updateMachinesPool w) in
  exists delta,
    log w' = delta ++ log w
    /\ Z.of_nat (length (List.filter is_creation delta))
       = Z.max 0 (desiredPoolSize + inFlightCount - freeCount)
    /\ length (List.filter is_push delta) = length (List.filter is_creation delta)
    /\ List.filter is_destruction delta = []
    /\ (desiredPoolSize = 0 -> inFlightCount <= freeCount ->
        List.filter is_creation delta = []
        /\ machines w' = machines w
        /\ _awaitingMachines w' = _awaitingMachines w).
Proof.
  intros Hd Hpool Hname desiredPoolSize inFlightCount freeCount w'.
  subst w'. unfold _updateMachinesPool, then_, assert, resolve,
    ConfigService_get, Machine_count_free.
  rewrite Hd. simpl. rewrite Hpool. simpl.
  fold desiredPoolSize inFlightCount freeCount.
  set (k := Z.to_nat (desiredPoolSize + inFlightCount - freeCount)).
  set (w0 := emit EvCount (emit (EvConfigGet "machinePoolSize") w)).
  destruct (create_loop_dispatch d naming k [] w0 Hd Hname) as (Hlog & Hlen).
  destruct (dispatched_counts (machinesName naming) k (next_pid w0)) as (Hc & Hp & Hx).
  assert (Hzero : k = 0%nat -> create_loop k [] w0 = ([], w0)) by (now intros ->).
  destruct (create_loop k [] w0) as [ms w1] eqn:Hloop.
  destruct (settle_all_world ms w1) as [l Hl].
  assert (Hnil : ms = [] -> snd (settle_all ms w1) = w1) by (now intros ->).
  destruct (settle_all ms w1) as [answers w2]. simpl in *. subst w2. simpl.
  exists (dispatched (machinesName naming) (next_pid w) k
          ++ [EvCount; EvConfigGet "machinePoolSize"]).
  rewrite Hlog. rewrite !List.filter_app, !length_app, Hc, Hp, Hx. simpl.
  split; [now rewrite <- app_assoc|].
  split; [subst k; lia|]. split; [lia|]. split; [reflexivity|].
  intros Hz Hle. assert (Hk : k = 0%nat) by (subst k; lia).
  specialize (Hzero Hk). inversion Hzero; subst ms w1.
  rewrite Hk. simpl. specialize (Hnil eq_refl).
  apply (f_equal _awaitingMachines) in Hnil. simpl in Hnil. now subst l.
Qed.

(** ** Assignment broker ([getMachineForUser]) *)

Lemma find_None_existsb {A} (f : A -> bool) (l : list A) :
  List.find f l = None -> existsb f l = false.
Proof.
  induction l as [|x l IH]; simpl; [reflexivity|].
  destruct (f x); [discriminate | exact IH].
Qed.

(** The rows returned by the statement carry the selected id and the user. *)
Lemma assigned_rows u i table m :
  In m (List.filter (has_id i) (assign_user u i table)) ->
  id m = i /\ user m = Some u.
Proof.
  intros Hin. apply List.filter_In in Hin. destruct Hin as [Hin Hid].
  unfold assign_user in Hin. apply List.in_map_iff in Hin.
  destruct Hin as (m0 & Hm & _).
  split; [now apply String.eqb_eq in Hid|].
  destruct (has_id i m0) eqn:E; subst m; [reflexivity|].
  rewrite E in Hid. discriminate Hid.
Qed.

Lemma assigned_rows_nonempty u sub table :
  In sub table ->
  List.filter (has_id (id sub)) (assign_user u (id sub) table) <> [].
Proof.
  intros Hin Hnil.
  assert (Hrow : In (with_user u sub)
                    (List.filter (has_id (id sub)) (assign_user u (id sub) table))).
  { apply List.filter_In. split.
    - unfold assign_user. apply List.in_map_iff. exists sub. split; [|exact Hin].
      unfold has_id. now rewrite String.eqb_refl.
    - unfold has_id. simpl. apply String.eqb_refl. }
  rewrite Hnil in Hrow. exact Hrow.
Qed.

(** C6: for a user who already has a machine, and a driver that is set,
    [getMachineForUser] resolves with that machine; called twice in a row it
    answers the same machine both times, the table is left as it was and the
    only calls logged are the two look-ups: no claim statement is sent. *)
Theorem getMachineForUser_existing (user : User.t) (w : World) (d : Driver)
    (machine : Machine) :
  _driver w = Some d ->
  List.find (has_user (User.id user)) (machines w) = Some machine ->
  let first := getMachineForUser user w in
  let second := getMachineForUser user (snd first) in
  fst first = Resolved machine
  /\ fst second = Resolved machine
  /\ machines (snd second) = machines w
  /\ log (snd second) = [EvFindOne (User.id user); EvFindOne (User.id user)] ++ log w
  /\ List.filter is_claim [EvFindOne (User.id user); EvFindOne (User.id user)] = [].
Proof.
  intros Hd Hfind.
  assert (Hcall : forall w0, _driver w0 = Some d -> machines w0 = machines w ->
            getMachineForUser user w0
            = (Resolved machine, emit (EvFindOne (User.id user)) w0)).
  { intros w0 Hd0 Hm0.
    unfold getMachineForUser, then_, assert, resolve, Machine_findOne.
    rewrite Hd0. simpl. now rewrite Hm0, Hfind. }
  cbv zeta. rewrite (Hcall w Hd eq_refl). cbn [fst snd].
  rewrite (Hcall (emit (EvFindOne (User.id user)) w) Hd eq_refl). now repeat split.
Qed.

(** [getMachineForUser], past its guard and its look-up, is the callback of
    the query applied to what the claim statement answered. *)
Lemma getMachineForUser_callback (caller : User.t) (w : World) (d : Driver) :
  _driver w = Some d ->
  List.find (has_user (User.id caller)) (machines w) = None ->
  getMachineForUser caller w
  = query_callback
      (fst (Machine_query_claim (User.id caller) (emit (EvFindOne (User.id caller)) w)))
      (snd (Machine_query_claim (User.id caller) (emit (EvFindOne (User.id caller)) w))).
Proof.
  intros Hd Hnone.
  unfold getMachineForUser, then_, assert, resolve, Machine_findOne, query_callback.
  rewrite Hd. simpl. rewrite Hnone.
  destruct (Machine_query_claim (User.id caller) (emit (EvFindOne (User.id caller)) w))
    as [[rows|err|] w1]; reflexivity.
Qed.

(** ** Lease manager ([_shouldTerminateMachine]) and [initialize] *)

Lemma find_filter_negb {A} (f : A -> bool) (l : list A) :
  List.find f (List.filter (fun x => negb (f x)) l) = None.
Proof.
  induction l as [|x l IH]; simpl; [reflexivity|].
  destruct (f x) eqn:E; simpl; [exact IH | now rewrite E].
Qed.

Section LeaseClaims.

Variable rt : Runtime.

Lemma shouldTerminate_unfold (machine : Machine) (w w1 : World) (active : bool) :
  isSessionActive rt machine w = (Resolved active, w1) ->
  snd (_shouldTerminateMachine rt machine w)
  = if negb active
    then if date_lt (endDate machine) (clock w1)
         then snd (_terminateMachine machine w1)
         else w1
    else w1.
Proof.
  intros Hprobe. unfold _shouldTerminateMachine, forget, then_.
  rewrite Hprobe. cbn [snd].
  destruct active; cbn [negb]; [reflexivity|].
  now destruct (date_lt (endDate machine) (clock w1)).
Qed.



(** C7: once the driver variable is set, [initialize] rejects with the
    already-initialised error and leaves the world untouched: no driver is
    constructed, no reconcile runs, nothing is logged. *)
Theorem initialize_already_initialized (w : World) (d : Driver) :
  _driver w = Some d ->
  initialize rt w = (Rejected driverAlreadyInitializedError, w).
Proof.
  intros Hd. unfold initialize, then_, assert, reject. now rewrite Hd.
Qed.

(** A first initialisation that completes leaves the driver variable set,
    so the state it produces is one of those of
    [initialize_already_initialized]. *)
Lemma initialize_sets_driver (w w1 : World) :
  _driver w = None -> _initializing w = None ->
  initialize rt w = (Resolved tt, w1) ->
  exists d, _driver w1 = Some d.
Proof.
  intros Hd Hi. unfold initialize, then_, assert, resolve, ConfigService_get.
  rewrite Hd. cbn [is_null]. rewrite Hi.
  destruct (config_store w "iaas") as [cfg|e|]; try discriminate.
  destruct (drivers rt (iaas cfg)) as [d|]; try discriminate.
  destruct (driver_initialize d); try discriminate.
  intros H. inversion H; subst w1. exists d. cbn [_driver set_initializing].
  match goal with
  | |- context [forget _updateMachinesPool ?w0] =>
      destruct (_updateMachinesPool_frame w0) as [(Hdrv & _) _];
      unfold forget; rewrite Hdrv
  end.
  reflexivity.
Qed.

End LeaseClaims.

(** ** The properties on concrete runs *)

Lemma getSessions_payload_witness :
  exists sessions w1,
    getSessions (Scenario.rt Scenario.dummy) Scenario.m1
      (Scenario.world Scenario.dummy [Scenario.m1] 0 Scenario.body_second_active)
    = (Resolved sessions, w1)
    /\ length sessions = 2%nat.
Proof.
  destruct (getSessions_payload (Scenario.rt Scenario.dummy) Scenario.m1
              (Scenario.world Scenario.dummy [Scenario.m1] 0 Scenario.body_second_active)
              {| body := Scenario.body_second_active |} eq_refl)
    as (_ & Hrecords & _).
  destruct (Hrecords _ _ eq_refl eq_refl) as (sessions & w1 & Hrun & Hlen & _).
  - repeat constructor; discriminate.
  - exists sessions, w1. split; [exact Hrun | exact Hlen].
Defined.

(** C8, as first stated, fails on a body that parses and whose data array
    holds a null element: the body is accepted by [JSON.parse], the array has
    one element, and [getSessions] rejects instead of returning a record. *)
Lemma getSessions_null_element_rejects :
  JSON_parse (Scenario.rt Scenario.dummy) Scenario.body_null_element
  = Some (JObj [("data", JArr [JNull])])
  /\ fst (getSessions (Scenario.rt Scenario.dummy) Scenario.m1
            (Scenario.world Scenario.dummy [Scenario.m1] 0 Scenario.body_null_element))
     = Rejected TypeError.
Proof. split; reflexivity. Qed.

Lemma isSessionActive_first_session_witness :
  exists b,
    fst (isSessionActive (Scenario.rt Scenario.dummy) Scenario.m1
           (Scenario.world Scenario.dummy [Scenario.m1] 0 Scenario.body_second_active))
    = Resolved b
    /\ b = false.
Proof.
  destruct (isSessionActive_first_session (Scenario.rt Scenario.dummy) Scenario.m1
              (Scenario.world Scenario.dummy [Scenario.m1] 0 Scenario.body_second_active)
              _ _ eq_refl) as (b & Hrun & _ & Hfalse).
  exists b. split.
  - now rewrite Hrun.
  - eapply Hfalse; [reflexivity | discriminate].
Defined.

Lemma shouldTerminate_probe_failure_witness :
  fst (_shouldTerminateMachine (Scenario.rt Scenario.dummy) Scenario.m2
         (Scenario.world Scenario.dummy [Scenario.m2] 2000 Scenario.body_garbage))
  = null
  /\ machines (snd (_shouldTerminateMachine (Scenario.rt Scenario.dummy) Scenario.m2
         (Scenario.world Scenario.dummy [Scenario.m2] 2000 Scenario.body_garbage)))
     = [Scenario.m2].
Proof.
  destruct (shouldTerminate_probe_failure (Scenario.rt Scenario.dummy) Scenario.m2
              (Scenario.world Scenario.dummy [Scenario.m2] 2000 Scenario.body_garbage)
              _ SyntaxError eq_refl) as (Hrun & Htable & _).
  rewrite Hrun. split; [reflexivity | exact Htable].
Defined.

Lemma reconcile_dispatches_deficit_witness :
  exists delta,
    log (snd (_updateMachinesPool
                (Scenario.world Scenario.dummy [Scenario.m2] 0 Scenario.body_no_session)))
    = delta ++ []
    /\ Z.of_nat (length (List.filter is_creation delta)) = 1
    /\ length (List.filter is_push delta) = length (List.filter is_creation delta)
    /\ List.filter is_destruction delta = [].
Proof.
  destruct (reconcile_dispatches_deficit
              (Scenario.world Scenario.dummy [Scenario.m2] 0 Scenario.body_no_session)
              Scenario.dummy Scenario.settings Scenario.settings eq_refl eq_refl eq_refl)
    as (delta & Hlog & Hcount & Hpush & Hkeep & _).
  exists delta. repeat split; assumption.
Defined.

(** C5, as first stated, fails when creations are in flight: with a desired
    pool size of 0, one free machine and two pending creations, the pass
    dispatches one creation. *)
Lemma reconcile_zero_pool_still_creates :
  config_store Scenario.world_in_flight "machinePoolSize" = Resolved Scenario.settings_zero
  /\ machinePoolSize Scenario.settings_zero = 0
  /\ length (List.filter is_free (machines Scenario.world_in_flight)) = 1%nat
  /\ List.filter is_creation (log (snd (_updateMachinesPool Scenario.world_in_flight)))
     = [EvDriverCreate "spare"].
Proof. repeat split; reflexivity. Qed.

Lemma getMachineForUser_existing_witness :
  fst (getMachineForUser Scenario.bob
         (Scenario.world Scenario.dummy [Scenario.m1; Scenario.m2] 0 Scenario.body_no_session))
  = Resolved Scenario.m2
  /\ fst (getMachineForUser Scenario.bob
            (snd (getMachineForUser Scenario.bob
                    (Scenario.world Scenario.dummy [Scenario.m1; Scenario.m2] 0
                       Scenario.body_no_session))))
     = Resolved Scenario.m2.
Proof.
  destruct (getMachineForUser_existing Scenario.bob
              (Scenario.world Scenario.dummy [Scenario.m1; Scenario.m2] 0
                 Scenario.body_no_session)
              Scenario.dummy Scenario.m2 eq_refl eq_refl) as (Hfirst & Hsecond & _).
  split; assumption.
Defined.

(** C4 on a concrete run: alice has no machine, [m1] is free, the desired
    pool size is 1 and the provisioning of the driver fails.  The claim
    statement gives [m1] to alice; the reconcile that the callback then runs
    dispatches one creation, which is rejected, so the reconcile is rejected;
    the callback resolves only when the reconcile resolves and has no
    handler for its rejection, so alice's promise is never settled, although
    the machine is hers in the table.  With a driver whose provisioning
    never answers, her promise is pending likewise. *)
Example getMachineForUser_reconcile_failure_never_settles :
  let w := Scenario.world Cases.failing [Scenario.m1] 0 Scenario.body_no_session in
  let claimed := Machine_query_claim "alice" (emit (EvFindOne "alice") w) in
  List.find (has_user "alice") (machines w) = None
  /\ List.find is_free (machines w) = Some Scenario.m1
  /\ fst claimed = Resolved [with_user "alice" Scenario.m1]
  /\ fst (_updateMachinesPool (snd claimed)) = Rejected (ExternalError "quota")
  /\ fst (getMachineForUser Scenario.alice w) = Pending
  /\ machines (snd (getMachineForUser Scenario.alice w)) = [with_user "alice" Scenario.m1]
  /\ fst (getMachineForUser Scenario.alice
            (Scenario.world Scenario.stalled [Scenario.m1] 0 Scenario.body_no_session))
     = Pending.
Proof. repeat split; reflexivity. Qed.



(** The second half of C3, as first stated, fails as well: the probe
    reports two sessions, the second of which is Active, the clock is past
    the expiry, and the check removes the record and asks the driver to
    destroy the machine, because only the first session is looked at. *)
Lemma shouldTerminate_later_session_active_destroys :
  option_map (map Session.state)
    (match fst (getSessions (Scenario.rt Scenario.dummy) Scenario.m2
                  (Scenario.world Scenario.dummy [Scenario.m2] 2000
                     Scenario.body_second_active)) with
     | Resolved sessions => Some sessions
     | _ => None
     end)
  = Some [Json (JStr "Disconnected"); Json (JStr "Active")]
  /\ stored "m2"
       (snd (_shouldTerminateMachine (Scenario.rt Scenario.dummy) Scenario.m2
               (Scenario.world Scenario.dummy [Scenario.m2] 2000
                  Scenario.body_second_active)))
     = None
  /\ List.filter is_destruction
       (log (snd (_shouldTerminateMachine (Scenario.rt Scenario.dummy) Scenario.m2
               (Scenario.world Scenario.dummy [Scenario.m2] 2000
                  Scenario.body_second_active))))
     = [EvDriverDestroy Scenario.m2; EvDestroy "m2"].
Proof. repeat split; reflexivity. Qed.

Lemma initialize_already_initialized_witness :
  initialize (Scenario.rt Scenario.dummy)
    (Scenario.world Scenario.dummy [Scenario.m1] 0 Scenario.body_no_session)
  = (Rejected driverAlreadyInitializedError,
     Scenario.world Scenario.dummy [Scenario.m1] 0 Scenario.body_no_session).
Proof.
  exact (initialize_already_initialized (Scenario.rt Scenario.dummy)
           (Scenario.world Scenario.dummy [Scenario.m1] 0 Scenario.body_no_session)
           Scenario.dummy eq_refl).
Defined.

(** C2 on a concrete run: bob's machine is renewed at 1 000 ms and again at
    51 000 ms, both times for 100 s, so the stored expiry is 151 000 ms.  The
    check armed by the first renewal fires at 101 000 ms while no session is
    active; it compares the expiry of the object it captured (1 000 ms), not
    the stored one, and the machine is destroyed 50 s before its lease ends. *)
Example stale_expiry_check_destroys :
  let w1 := snd (sessionOpen Scenario.bob
                   (Scenario.world Scenario.dummy [Scenario.m2] 1000 Scenario.body_no_session)) in
  let w2 := snd (sessionEnded Scenario.bob (set_clock 51000 w1)) in
  option_map endDate (stored "m2" w2) = Some (Some 151000)
  /\ option_map (fun t => (armed_at t + delay t, endDate (captured t))) (timers w2 !! 0%nat)
     = Some (101000, Some 1000)
  /\ option_map (stored "m2") (fire_timer (Scenario.rt Scenario.dummy) 0 (set_clock 101000 w2))
     = Some None
  /\ option_map (fun w3 => List.filter is_destruction (log w3))
       (fire_timer (Scenario.rt Scenario.dummy) 0 (set_clock 101000 w2))
     = Some [EvDriverDestroy Scenario.m2; EvDestroy "m2"].
Proof. repeat split; reflexivity. Qed.

(** ** Concurrent claims ([ClaimRace]) *)

Lemma omap_insert_length {A B} (f : A -> option B) (l : list A) (i : nat) (x y : A) :
  l !! i = Some x ->
  (length (omap f (<[i:=y]> l)) + length (omap f [x])
   = length (omap f l) + length (omap f [y]))%nat.
Proof.
  intros Hx.
  rewrite insert_take_drop by (eapply lookup_lt_Some; eassumption).
  rewrite <- (take_drop_middle l i x Hx) at 3.
  rewrite !omap_app, !length_app.
  change (y :: drop (S i) l) with ([y] ++ drop (S i) l).
  change (x :: drop (S i) l) with ([x] ++ drop (S i) l).
  rewrite !omap_app, !length_app. lia.
Qed.

Lemma locked_rows_spec (txs : list ClaimRace.Tx) (s : MachineId) :
  s ∈ ClaimRace.locked_rows txs <->
  exists k u, txs !! k = Some (ClaimRace.Locking u s).
Proof.
  unfold ClaimRace.locked_rows. rewrite list_elem_of_omap. split.
  - intros (tx & Hin & Hholds). apply list_elem_of_lookup in Hin.
    destruct Hin as [k Hk]. destruct tx; simpl in Hholds; try discriminate.
    inversion Hholds; subst. eauto.
  - intros (k & u & Hk). exists (ClaimRace.Locking u s). split; [|reflexivity].
    eapply list_elem_of_lookup_2; eassumption.
Qed.

(** Rows with another id are not touched by the update. *)
Lemma assign_user_other u sub table m :
  m ∈ table -> id m <> sub -> m ∈ assign_user u sub table.
Proof.
  intros Hin Hne. unfold assign_user. apply list_elem_of_In, List.in_map_iff.
  exists m. split; [|now apply list_elem_of_In].
  unfold has_id. destruct (String.eqb_spec (id m) sub); [contradiction | reflexivity].
Qed.

Lemma assign_user_elem u sub table m' :
  m' ∈ assign_user u sub table ->
  (m' ∈ table /\ id m' <> sub) \/ (id m' = sub /\ user m' = Some u).
Proof.
  intros Hin. apply list_elem_of_In, List.in_map_iff in Hin.
  destruct Hin as (m & Hm & Hin). apply list_elem_of_In in Hin.
  unfold has_id in Hm. destruct (String.eqb_spec (id m) sub) as [Heq|Hne]; subst m'.
  - right. now split.
  - left. now split.
Qed.

Lemma assign_user_ids u sub table : map id (assign_user u sub table) = map id table.
Proof.
  unfold assign_user. rewrite List.map_map. apply List.map_ext.
  intros m. now destruct (has_id sub m).
Qed.

Lemma assign_user_absent u sub table :
  sub ∉ map id table -> assign_user u sub table = table.
Proof.
  induction table as [|x t IH]; intros Hnot; simpl; [reflexivity|].
  simpl in Hnot. apply not_elem_of_cons in Hnot. destruct Hnot as [Hne Hnot].
  unfold has_id. destruct (String.eqb_spec (id x) sub) as [Heq|_]; [now subst|].
  f_equal. now apply IH.
Qed.

Lemma free_count_assign u sub table m :
  NoDup (map id table) -> m ∈ table -> id m = sub -> is_free m = true ->
  (length (List.filter is_free (assign_user u sub table)) + 1
   = length (List.filter is_free table))%nat.
Proof.
  induction table as [|x t IH]; intros Hnd Hin Hid Hfree.
  - now apply not_elem_of_nil in Hin.
  - simpl in Hnd. apply NoDup_cons in Hnd. destruct Hnd as [Hx Hnd].
    simpl. unfold has_id at 1. destruct (String.eqb_spec (id x) sub) as [Heq|Hne].
    + assert (Hm : m = x).
      { apply elem_of_cons in Hin. destruct Hin as [|Hin]; [assumption|].
        exfalso. apply Hx. rewrite Heq, <- Hid.
        apply list_elem_of_In, List.in_map, list_elem_of_In, Hin. }
      subst x. rewrite Hfree. simpl.
      rewrite assign_user_absent by (now rewrite <- Heq). lia.
    + assert (Hin' : m ∈ t).
      { apply elem_of_cons in Hin. destruct Hin as [->|Hin]; [contradiction | assumption]. }
      specialize (IH Hnd Hin' Hid Hfree).
      destruct (is_free x); simpl; lia.
Qed.

Lemma NoDup_map_inj_on {A B} (f : A -> B) (l : list A) (x y : A) :
  NoDup (map f l) -> x ∈ l -> y ∈ l -> f x = f y -> x = y.
Proof.
  induction l as [|a l IH]; intros Hnd Hx Hy Heq.
  - now apply not_elem_of_nil in Hx.
  - simpl in Hnd. apply NoDup_cons in Hnd. destruct Hnd as [Ha Hnd].
    apply elem_of_cons in Hx. apply elem_of_cons in Hy.
    destruct Hx as [->|Hx], Hy as [->|Hy]; [reflexivity| | |now apply IH].
    + exfalso. apply Ha. rewrite Heq. apply list_elem_of_In, List.in_map, list_elem_of_In, Hy.
    + exfalso. apply Ha. rewrite <- Heq. apply list_elem_of_In, List.in_map, list_elem_of_In, Hx.
Qed.

Lemma omap_won_issued (us : list UserId) :
  omap ClaimRace.won (map ClaimRace.Issued us) = [].
Proof. induction us as [|u us IH]; simpl; [reflexivity | exact IH]. Qed.

Section Race.
Import ClaimRace.

Variable table0 : list Machine.
Variable users : list UserId.
Hypothesis Hkeys : NoDup (map id table0).
Hypothesis Husers : NoDup users.
Hypothesis Hnew : forall u, u ∈ users -> existsb (has_user u) table0 = false.

Lemma Inv_init : Inv table0 users table0 (map Issued users).
Proof.
  split.
  - reflexivity.
  - rewrite List.map_map. simpl. apply List.map_id.
  - intros k u s Hk. change (map Issued users) with (Issued <$> users) in Hk.
    rewrite list_lookup_fmap in Hk. destruct (users !! k); discriminate.
  - intros k1 k2 u1 u2 s Hk. change (map Issued users) with (Issued <$> users) in Hk.
    rewrite list_lookup_fmap in Hk. destruct (users !! k1); discriminate.
  - rewrite omap_won_issued. simpl. lia.
  - apply Forall_forall. intros tx Hin. apply list_elem_of_In, List.in_map_iff in Hin.
    destruct Hin as (u & <- & _). exact I.
  - intros m Hin _. exact Hin.
  - apply Forall_forall. intros tx Hin. apply list_elem_of_In, List.in_map_iff in Hin.
    destruct Hin as (u & <- & _). exact I.
  - intros m u Hin Hu. left. eauto.
  - intros (k & u & Hk). change (map Issued users) with (Issued <$> users) in Hk.
    rewrite list_lookup_fmap in Hk. destruct (users !! k); discriminate.
Qed.

Lemma callers_lookup table txs k tx :
  Inv table0 users table txs -> txs !! k = Some tx -> users !! k = Some (caller tx).
Proof.
  intros HI Hk. rewrite <- (inv_callers _ _ _ _ HI).
  change (map caller txs) with (caller <$> txs).
  now rewrite list_lookup_fmap, Hk.
Qed.

Lemma callers_insert (txs : list Tx) i tx tx' :
  txs !! i = Some tx -> caller tx' = caller tx ->
  map caller (<[i:=tx']> txs) = map caller txs.
Proof.
  intros Hi Hc. change (caller <$> <[i:=tx']> txs = caller <$> txs).
  rewrite list_fmap_insert. apply list_insert_id.
  now rewrite list_lookup_fmap, Hi, Hc.
Qed.

(** A statement still in progress belongs to a user that owns no row yet:
    the uniqueness constraint cannot fire. *)
Lemma no_violation table txs i tx :
  Inv table0 users table txs -> txs !! i = Some tx -> finished tx = false ->
  existsb (has_user (caller tx)) table = false.
Proof.
  intros HI Hi Hfin.
  destruct (existsb (has_user (caller tx)) table) eqn:E; [exfalso | reflexivity].
  apply List.existsb_exists in E. destruct E as (m & Hin & Hu).
  apply list_elem_of_In in Hin.
  assert (Huser : user m = Some (caller tx)).
  { unfold has_user in Hu. destruct (user m) as [u'|]; [|discriminate].
    apply String.eqb_eq in Hu. now subst. }
  pose proof (callers_lookup _ _ _ _ HI Hi) as Hci.
  destruct (inv_owner _ _ _ _ HI m _ Hin Huser) as [(m0 & Hin0 & Hu0)|(k & res & Hk)].
  - assert (Hmem : caller tx ∈ users) by (eapply list_elem_of_lookup_2; eassumption).
    specialize (Hnew _ Hmem).
    assert (Hex : existsb (has_user (caller tx)) table0 = true).
    { apply List.existsb_exists. exists m0. split; [now apply list_elem_of_In|].
      unfold has_user. rewrite Hu0. apply String.eqb_refl. }
    congruence.
  - pose proof (callers_lookup _ _ _ _ HI Hk) as Hck. simpl in Hck.
    assert (k = i) by (eapply NoDup_lookup; eassumption). subst k.
    rewrite Hi in Hk. injection Hk as Hk. rewrite Hk in Hfin. discriminate Hfin.
Qed.

Lemma table_keys table txs : Inv table0 users table txs -> NoDup (map id table).
Proof. intros HI. now rewrite (inv_ids _ _ _ _ HI). Qed.

(** A row that already has a user is not the row of a lock. *)
Lemma assigned_row_kept table txs u sub k u' row :
  Inv table0 users table txs ->
  txs !! k = Some (Locking u sub) ->
  row ∈ table -> user row = Some u' ->
  row ∈ assign_user u sub table.
Proof.
  intros HI Hk Hin Hu. apply assign_user_other; [exact Hin|].
  intros Heq. destruct (inv_lock _ _ _ _ HI _ _ _ Hk) as (m & Hm & Hid & Hfree).
  assert (row = m).
  { eapply (NoDup_map_inj_on id); [eapply table_keys; eassumption| | |congruence]; assumption. }
  subst m. unfold is_free in Hfree. rewrite Hu in Hfree. discriminate.
Qed.

Ltac insert_cases H :=
  apply list_lookup_insert_Some in H;
  destruct H as [(? & ? & ?) | (? & H)]; subst; try discriminate.

Lemma Inv_step table txs table' txs' :
  Inv table0 users table txs ->
  step (table, txs) (table', txs') ->
  Inv table0 users table' txs'.
Proof.
  intros HI Hstep.
  inversion Hstep as [? ? i u m Hi Hin Hfree Hunlocked
                     |? ? i u Hi Hall
                     |? ? i u sub Hi Hex
                     |? ? i u sub Hi Hex]; subst.
  - (* the sub-select locks a free row *)
    split.
    + apply (inv_ids _ _ _ _ HI).
    + rewrite (callers_insert txs i (Issued u)) by (assumption || reflexivity).
      apply (inv_callers _ _ _ _ HI).
    + intros k u' s Hk. insert_cases Hk.
      * match goal with H : Locking _ _ = Locking _ _ |- _ => inversion H; subst end.
        now exists m.
      * eapply (inv_lock _ _ _ _ HI); eassumption.
    + intros k1 k2 u1 u2 s Hk1 Hk2. insert_cases Hk1; insert_cases Hk2.
      * reflexivity.
      * match goal with H : Locking _ _ = Locking _ _ |- _ => inversion H; subst end.
        exfalso. apply Hunlocked. apply locked_rows_spec. eauto.
      * match goal with H : Locking _ _ = Locking _ _ |- _ => inversion H; subst end.
        exfalso. apply Hunlocked. apply locked_rows_spec. eauto.
      * eapply (inv_excl _ _ _ _ HI); eassumption.
    + pose proof (omap_insert_length won txs i _ (Locking u (id m)) Hi) as Hlen.
      pose proof (inv_count _ _ _ _ HI). simpl in Hlen. lia.
    + apply Forall_insert; [apply (inv_settled _ _ _ _ HI) | exact I].
    + apply (inv_free _ _ _ _ HI).
    + apply Forall_insert; [apply (inv_pool _ _ _ _ HI) | exact I].
    + intros m' u' Hin' Hu'.
      destruct (inv_owner _ _ _ _ HI m' u' Hin' Hu') as [?|(k & res & Hk)]; [now left|].
      right. exists k, res. rewrite list_lookup_insert_ne; [assumption|congruence].
    + intros (k & u0 & Hk) m' Hin' Hfree'. insert_cases Hk.
      destruct (inv_starved _ _ _ _ HI (ex_intro _ k (ex_intro _ u0 Hk)) m' Hin' Hfree')
        as (k' & u' & Hk').
      exists k', u'. rewrite list_lookup_insert_ne; [assumption|congruence].
  - (* the sub-select finds every free row locked *)
    split.
    + apply (inv_ids _ _ _ _ HI).
    + rewrite (callers_insert txs i (Issued u)) by (assumption || reflexivity).
      apply (inv_callers _ _ _ _ HI).
    + intros k u' s Hk. insert_cases Hk.
      eapply (inv_lock _ _ _ _ HI); eassumption.
    + intros k1 k2 u1 u2 s Hk1 Hk2. insert_cases Hk1; insert_cases Hk2.
      eapply (inv_excl _ _ _ _ HI); eassumption.
    + pose proof (omap_insert_length won txs i _ (Finished u (Resolved [])) Hi) as Hlen.
      pose proof (inv_count _ _ _ _ HI). simpl in Hlen. lia.
    + apply Forall_insert; [apply (inv_settled _ _ _ _ HI) | exact I].
    + apply (inv_free _ _ _ _ HI).
    + apply Forall_insert; [apply (inv_pool _ _ _ _ HI) | exact I].
    + intros m' u' Hin' Hu'.
      destruct (inv_owner _ _ _ _ HI m' u' Hin' Hu') as [?|(k & res & Hk)]; [now left|].
      right. exists k, res. rewrite list_lookup_insert_ne; [assumption|congruence].
    + intros _ m' Hin' Hfree'.
      apply Hall in Hfree'; [|assumption]. apply locked_rows_spec in Hfree'.
      destruct Hfree' as (k' & u' & Hk').
      exists k', u'. rewrite list_lookup_insert_ne; [assumption|congruence].
  - (* the update assigns the locked row *)
    destruct (inv_lock _ _ _ _ HI _ _ _ Hi) as (m & Hm & Hid & Hfree).
    pose proof (table_keys _ _ HI) as Hnd.
    assert (Hne : List.filter (has_id sub) (assign_user u sub table) <> []).
    { rewrite <- Hid. apply assigned_rows_nonempty. now apply list_elem_of_In. }
    pose proof (assigned_rows u sub table) as Hrows.
    destruct (List.filter (has_id sub) (assign_user u sub table)) as [|row rest] eqn:Hf;
      [congruence|].
    destruct (Hrows row (or_introl eq_refl)) as [Hrid Hruser].
    assert (Hrin : row ∈ assign_user u sub table).
    { apply list_elem_of_In. eapply proj1, List.filter_In. rewrite Hf. now left. }
    split.
    + rewrite assign_user_ids. apply (inv_ids _ _ _ _ HI).
    + rewrite (callers_insert txs i (Locking u sub)) by (assumption || reflexivity).
      apply (inv_callers _ _ _ _ HI).
    + intros k u' s Hk. insert_cases Hk.
      destruct (inv_lock _ _ _ _ HI _ _ _ Hk) as (m' & Hm' & Hid' & Hfree').
      exists m'. split; [|now split].
      apply assign_user_other; [assumption|]. intros Heq. subst s.
      match goal with Hne' : i <> k |- _ => apply Hne' end.
      eapply (inv_excl _ _ _ _ HI); [exact Hi|]. rewrite <- Heq. exact Hk.
    + intros k1 k2 u1 u2 s Hk1 Hk2. insert_cases Hk1; insert_cases Hk2.
      eapply (inv_excl _ _ _ _ HI); eassumption.
    + pose proof (omap_insert_length won txs i _
                    (Finished u (Resolved (row :: rest))) Hi) as Hlen.
      pose proof (free_count_assign u sub table m Hnd Hm Hid Hfree).
      pose proof (inv_count _ _ _ _ HI). simpl in Hlen. lia.
    + apply Forall_insert; [|now split].
      eapply Forall_impl; [apply (inv_settled _ _ _ _ HI)|].
      intros tx Hok. destruct tx as [| |u0 [[|r rs]| |]]; simpl in *; try exact Hok.
      destruct Hok as [Hr Hu0]. split; [|exact Hu0].
      eapply assigned_row_kept; eassumption.
    + intros m' Hin' Hfree'.
      apply assign_user_elem in Hin'. destruct Hin' as [[Hin' _]|[_ Huser']].
      * now apply (inv_free _ _ _ _ HI).
      * unfold is_free in Hfree'. rewrite Huser' in Hfree'. discriminate.
    + apply Forall_insert; [apply (inv_pool _ _ _ _ HI)|].
      exists m. split; [now apply (inv_free _ _ _ _ HI)|]. split; [assumption|congruence].
    + intros m' u' Hin' Hu'.
      apply assign_user_elem in Hin'. destruct Hin' as [[Hin' Hne']|[Hid' Huser']].
      * destruct (inv_owner _ _ _ _ HI m' u' Hin' Hu') as [?|(k & res & Hk)]; [now left|].
        right. exists k, res. rewrite list_lookup_insert_ne; [assumption|congruence].
      * right. exists i. eexists. rewrite list_lookup_insert_eq
          by (eapply lookup_lt_Some; eassumption).
        rewrite Hu' in Huser'. inversion Huser'; subst. reflexivity.
    + intros (k & u0 & Hk) m' Hin' Hfree'. insert_cases Hk.
      apply assign_user_elem in Hin'. destruct Hin' as [[Hin' Hne']|[Hid' Huser']].
      * destruct (inv_starved _ _ _ _ HI (ex_intro _ k (ex_intro _ u0 Hk)) m' Hin' Hfree')
          as (k' & u' & Hk').
        exists k', u'. rewrite list_lookup_insert_ne; [assumption|].
        intros ->. rewrite Hi in Hk'. inversion Hk'; subst. congruence.
      * unfold is_free in Hfree'. rewrite Huser' in Hfree'. discriminate.
  - (* the uniqueness constraint cannot be violated *)
    pose proof (no_violation _ _ _ _ HI Hi eq_refl) as Hno. simpl in Hno. congruence.
Qed.

Lemma Inv_reachable table txs :
  rtc step (table0, map Issued users) (table, txs) -> Inv table0 users table txs.
Proof.
  intros Hrun.
  change (Inv table0 users (table, txs).1 (table, txs).2).
  eapply (rtc_ind_r (fun c : Config => Inv table0 users c.1 c.2)); [| |exact Hrun].
  - apply Inv_init.
  - intros [t1 x1] [t2 x2] _ Hstep HI. simpl in *. eapply Inv_step; eassumption.
Qed.

Lemma winners_or_starved (table : list Machine) (txs : list Tx) :
  Forall (settled_ok table) txs ->
  Forall (fun tx => finished tx = true) txs ->
  (length (omap won txs) + length (List.filter starved txs) = length txs)%nat.
Proof.
  induction txs as [|tx txs IH]; intros Hok Hfin; [reflexivity|].
  inversion Hok as [|? ? Hok1 Hok']; inversion Hfin as [|? ? Hfin1 Hfin']; subst.
  specialize (IH Hok' Hfin').
  destruct tx as [| |u [[|r rs]| |]]; simpl in *;
    try congruence; try contradiction;
    change (list_omap Tx Machine won txs) with (omap won txs); lia.
Qed.

Lemma winners_users (table : list Machine) (txs : list Tx) :
  Forall (settled_ok table) txs ->
  sublist (map user (omap won txs)) (map (fun tx => Some (caller tx)) txs).
Proof.
  induction txs as [|tx txs IH]; intros Hok; [constructor|].
  inversion Hok as [|? ? Hok1 Hok']; subst. specialize (IH Hok').
  destruct tx as [| |u [[|r rs]| |]]; simpl in *;
    try (now apply sublist_cons).
  destruct Hok1 as [_ ->]. now apply sublist_skip.
Qed.

Lemma winners_in_table (table : list Machine) (txs : list Tx) row :
  Forall (settled_ok table) txs -> row ∈ omap won txs -> row ∈ table.
Proof.
  intros Hok Hin. apply list_elem_of_omap in Hin. destruct Hin as (tx & Hin & Hwon).
  rewrite Forall_forall in Hok. specialize (Hok tx Hin).
  destruct tx as [| |u [[|r rs]| |]]; simpl in *; try discriminate.
  inversion Hwon; subst. apply Hok.
Qed.

Lemma filter_nil_not {A} (f : A -> bool) (l : list A) :
  (forall x, x ∈ l -> f x = true -> False) -> List.filter f l = [].
Proof.
  induction l as [|x l IH]; intros H; simpl; [reflexivity|].
  destruct (f x) eqn:E.
  - exfalso. apply (H x); [left | exact E].
  - apply IH. intros y Hy. apply H. now right.
Qed.

(** C1 (as amended): from a table with unique ids holding M free machines,
    let N > M distinct users that own no machine each send the claim
    statement, the table being changed by these statements only.  However
    the steps of the N transactions interleave, once all have finished
    exactly M statements answered a row, these rows have pairwise distinct
    ids, each is one of the machines that were free, and the N - M other
    statements answered no error and no row.  On such an answer the callback
    of [getMachineForUser] rejects with [noMachineFoundError]; on a row it
    resolves with that row when the reconcile it runs resolves. *)
Theorem claim_race_exactly_once (table' : list Machine) (txs' : list Tx) :
  (length (List.filter is_free table0) < length users)%nat ->
  rtc step (table0, map Issued users) (table', txs') ->
  Forall (fun tx => finished tx = true) txs' ->
  length (omap won txs') = length (List.filter is_free table0)
  /\ NoDup (map id (omap won txs'))
  /\ (forall row, row ∈ omap won txs' ->
        exists m0, m0 ∈ table0 /\ is_free m0 = true /\ id m0 = id row)
  /\ length (List.filter starved txs')
     = (length users - length (List.filter is_free table0))%nat
  /\ (forall tx w, tx ∈ txs' -> starved tx = true ->
        query_callback (answer tx) w = (Rejected noMachineFoundError, w))
  /\ (forall tx row w ms w2, tx ∈ txs' -> won tx = Some row ->
        _updateMachinesPool w = (Resolved ms, w2) ->
        query_callback (answer tx) w = (Resolved row, w2)).
Proof.
  intros Hlt Hrun Hfin.
  pose proof (Inv_reachable _ _ Hrun) as HI.
  pose proof (winners_or_starved _ _ (inv_settled _ _ _ _ HI) Hfin) as Hsplit.
  pose proof (inv_count _ _ _ _ HI) as Hcount.
  assert (Hlen : length txs' = length users).
  { rewrite <- (inv_callers _ _ _ _ HI). now rewrite length_map. }
  assert (Hnofree : List.filter is_free table' = []).
  { destruct (List.filter starved txs') as [|tx rest] eqn:Hst.
    - simpl in Hsplit. lia.
    - assert (Htx : In tx (List.filter starved txs')) by (rewrite Hst; now left).
      apply List.filter_In in Htx. destruct Htx as [Htx Hstarved].
      apply list_elem_of_In, list_elem_of_lookup in Htx. destruct Htx as [k Hk].
      destruct tx as [| |u [[|r rs]| |]]; simpl in Hstarved; try discriminate.
      apply filter_nil_not. intros m Hm Hfree.
      destruct (inv_starved _ _ _ _ HI (ex_intro _ k (ex_intro _ u Hk)) m Hm Hfree)
        as (k' & u' & Hk').
      rewrite Forall_lookup in Hfin. specialize (Hfin _ _ Hk'). discriminate Hfin. }
  rewrite Hnofree in Hcount. simpl in Hcount.
  split; [exact Hcount|]. split; [|split; [|split; [lia|split]]].
  - assert (Hnd : NoDup (omap won txs')).
    { apply (NoDup_fmap_1 user).
      eapply sublist_NoDup;
        [|apply (winners_users table' txs' (inv_settled _ _ _ _ HI))].
      change (NoDup ((fun tx => Some (caller tx)) <$> txs')).
      rewrite (list_fmap_compose caller Some).
      apply (NoDup_fmap_2 Some).
      change (caller <$> txs') with (map caller txs').
      now rewrite (inv_callers _ _ _ _ HI). }
    change (NoDup (id <$> omap won txs')).
    apply NoDup_fmap_2_strong; [|exact Hnd].
    intros x y Hx Hy Heq.
    eapply (NoDup_map_inj_on id table'); try eassumption.
    + eapply table_keys; eassumption.
    + eapply winners_in_table; [apply (inv_settled _ _ _ _ HI) | exact Hx].
    + eapply winners_in_table; [apply (inv_settled _ _ _ _ HI) | exact Hy].
  - intros row Hrow. apply list_elem_of_omap in Hrow.
    destruct Hrow as (tx & Hin & Hwon).
    pose proof (inv_pool _ _ _ _ HI) as Hpool. rewrite Forall_forall in Hpool.
    specialize (Hpool tx Hin). unfold from_pool in Hpool. now rewrite Hwon in Hpool.
  - intros tx w _ Hstarved.
    destruct tx as [| |u [[|r rs]| |]]; simpl in Hstarved; try discriminate. reflexivity.
  - intros tx row w ms w2 _ Hwon Hrec.
    destruct tx as [| |u [[|r rs]| |]]; simpl in Hwon; try discriminate.
    inversion Hwon; subst. unfold query_callback. simpl. now rewrite Hrec.
Qed.
End Race.

Section RaceRuns.
Import ClaimRace.

Lemma work_insert (txs : list Tx) i tx tx' :
  txs !! i = Some tx ->
  (total_work (<[i:=tx']> txs) + work tx = total_work txs + work tx')%nat.
Proof.
  intros Hi. unfold total_work.
  rewrite insert_take_drop by (eapply lookup_lt_Some; eassumption).
  rewrite <- (take_drop_middle txs i tx Hi) at 3.
  rewrite !sum_list_with_app. simpl. lia.
Qed.

(** Every step uses up work: an execution of N statements has at most 2N
    steps. *)
Lemma step_decreases table txs table' txs' :
  step (table, txs) (table', txs') -> (total_work txs' < total_work txs)%nat.
Proof.
  intros Hstep.
  inversion Hstep as [? ? i u m Hi _ _ _|? ? i u Hi _|? ? i u sub Hi _|? ? i u sub Hi _];
    subst;
    match goal with
    | |- (total_work (<[_:=?tx']> _) < _)%nat =>
        pose proof (work_insert _ _ _ tx' Hi) as Hw; simpl in Hw; lia
    end.
Qed.

(** A statement that has not finished can always take its next step. *)
Lemma step_progress table (txs : list Tx) i tx :
  txs !! i = Some tx -> finished tx = false ->
  exists c', step (table, txs) c'.
Proof.
  intros Hi Hfin. destruct tx as [u|u sub|u res]; [| |discriminate Hfin].
  - destruct (List.find (fun m => is_free m && negb (bool_decide (id m ∈ locked_rows txs)))
                table) as [m|] eqn:Hfind.
    + apply List.find_some in Hfind. destruct Hfind as [Hin Hm].
      apply andb_prop in Hm. destruct Hm as [Hfree Hun].
      eexists. eapply (step_select _ _ i u m); [exact Hi| now apply list_elem_of_In |exact Hfree|].
      apply negb_true_iff in Hun. now apply bool_decide_eq_false in Hun.
    + eexists. eapply (step_skip _ _ i u); [exact Hi|].
      intros m Hin Hfree. apply list_elem_of_In in Hin.
      pose proof (List.find_none _ _ Hfind m Hin) as Hm. simpl in Hm.
      rewrite Hfree in Hm. simpl in Hm.
      apply negb_false_iff in Hm. now apply bool_decide_eq_true in Hm.
  - destruct (existsb (has_user u) table) eqn:E.
    + eexists. eapply step_violation; eassumption.
    + eexists. eapply step_update; eassumption.
Qed.

(** Whatever has happened so far, the statements can all be brought to
    their end. *)
Lemma race_completes : forall n table txs,
  (total_work txs <= n)%nat ->
  exists table' txs',
    rtc step (table, txs) (table', txs')
    /\ Forall (fun tx => finished tx = true) txs'.
Proof.
  induction n as [|n IH]; intros table txs Hn.
  - exists table, txs. split; [constructor|].
    apply Forall_forall. intros tx Hin.
    pose proof (sum_list_with_in tx work txs Hin) as Hle.
    unfold total_work in Hn. destruct tx; simpl in *; try lia; reflexivity.
  - destruct (Forall_Exists_dec (fun tx => finished tx = true)
                (fun tx => finished tx = false)
                (fun tx => match finished tx as b
                                 return {b = true} + {b = false} with
                           | true => left eq_refl
                           | false => right eq_refl
                           end) txs) as [Hall|Hex].
    + exists table, txs. split; [constructor | exact Hall].
    + apply Exists_exists in Hex. destruct Hex as (tx & Hin & Hfin).
      apply list_elem_of_lookup in Hin. destruct Hin as [i Hi].
      destruct (step_progress table txs i tx Hi Hfin) as [[table1 txs1] Hstep].
      pose proof (step_decreases _ _ _ _ Hstep) as Hlt.
      destruct (IH table1 txs1) as (table' & txs' & Hrun & Hdone); [lia|].
      exists table', txs'. split; [|exact Hdone].
      eapply rtc_l; eassumption.
Qed.

(** The statement run on its own ([claim_statement]) is the execution in
    which the two steps of a single transaction follow each other and the
    sub-select takes the first free row. *)
Lemma claim_statement_run (u : UserId) (table : list Machine) :
  rtc step (table, [Issued u])
    (snd (claim_statement u table), [Finished u (fst (claim_statement u table))]).
Proof.
  unfold claim_statement.
  destruct (List.find is_free table) as [sub|] eqn:Hfind.
  - apply List.find_some in Hfind. destruct Hfind as [Hin Hfree].
    eapply rtc_l.
    { apply (step_select table [Issued u] 0 u sub);
        [reflexivity | now apply list_elem_of_In | exact Hfree |].
      simpl. apply not_elem_of_nil. }
    simpl. destruct (existsb (has_user u) table) eqn:E; simpl.
    + apply rtc_once.
      apply (step_violation table [Locking u (id sub)] 0 u (id sub)); [reflexivity | exact E].
    + apply rtc_once.
      apply (step_update table [Locking u (id sub)] 0 u (id sub)); [reflexivity | exact E].
  - simpl. apply rtc_once. apply (step_skip table [Issued u] 0 u); [reflexivity|].
    intros m Hin Hfree. apply list_elem_of_In in Hin.
    pose proof (List.find_none _ _ Hfind m Hin). congruence.
Qed.
End RaceRuns.

Lemma claim_race_run : rtc ClaimRace.step Scenario.race_start Scenario.race_end.
Proof.
  apply (rtc_l _ _ ([Scenario.m1],
                    [ClaimRace.Locking "alice" "m1"; ClaimRace.Issued "carol"])).
  { apply (ClaimRace.step_select [Scenario.m1]
             [ClaimRace.Issued "alice"; ClaimRace.Issued "carol"] 0 "alice" Scenario.m1);
      [reflexivity | apply list_elem_of_here | reflexivity | apply not_elem_of_nil]. }
  apply (rtc_l _ _ ([Scenario.m1],
                    [ClaimRace.Locking "alice" "m1";
                     ClaimRace.Finished "carol" (Resolved [])])).
  { apply (ClaimRace.step_skip [Scenario.m1]
             [ClaimRace.Locking "alice" "m1"; ClaimRace.Issued "carol"] 1 "carol");
      [reflexivity|].
    intros m Hin _. apply list_elem_of_singleton in Hin. subst m.
    apply list_elem_of_here. }
  apply rtc_once.
  apply (ClaimRace.step_update [Scenario.m1]
           [ClaimRace.Locking "alice" "m1"; ClaimRace.Finished "carol" (Resolved [])]
           0 "alice" "m1"); reflexivity.
Defined.

Lemma claim_race_exactly_once_witness :
  length (omap ClaimRace.won (snd Scenario.race_end)) = 1%nat
  /\ NoDup (map id (omap ClaimRace.won (snd Scenario.race_end)))
  /\ length (List.filter ClaimRace.starved (snd Scenario.race_end)) = 1%nat.
Proof.
  destruct (claim_race_exactly_once [Scenario.m1] ["alice"; "carol"]) with
    (table' := fst Scenario.race_end) (txs' := snd Scenario.race_end)
    as (Hwon & Hdistinct & _ & Hstarved & _).
  - apply (bool_decide_unpack _). vm_compute. exact I.
  - apply (bool_decide_unpack _). vm_compute. exact I.
  - intros u Hu. apply list_elem_of_In in Hu. simpl in Hu.
    destruct Hu as [<-|[<-|[]]]; reflexivity.
  - simpl. lia.
  - exact claim_race_run.
  - repeat constructor.
  - split; [exact Hwon|]. split; [exact Hdistinct | exact Hstarved].
Defined.

Lemma same_user_run : rtc ClaimRace.step Cases.same_user_start Cases.same_user_end.
Proof.
  apply (rtc_l _ _ ([Scenario.m1; Cases.m3],
                    [ClaimRace.Locking "alice" "m1"; ClaimRace.Issued "alice";
                     ClaimRace.Issued "carol"])).
  { apply (ClaimRace.step_select [Scenario.m1; Cases.m3]
             [ClaimRace.Issued "alice"; ClaimRace.Issued "alice"; ClaimRace.Issued "carol"]
             0 "alice" Scenario.m1);
      [reflexivity | apply list_elem_of_here | reflexivity | apply not_elem_of_nil]. }
  apply (rtc_l _ _ ([Scenario.m1; Cases.m3],
                    [ClaimRace.Locking "alice" "m1"; ClaimRace.Locking "alice" "m3";
                     ClaimRace.Issued "carol"])).
  { apply (ClaimRace.step_select [Scenario.m1; Cases.m3]
             [ClaimRace.Locking "alice" "m1"; ClaimRace.Issued "alice";
              ClaimRace.Issued "carol"]
             1 "alice" Cases.m3);
      [reflexivity | apply list_elem_of_further, list_elem_of_here | reflexivity |].
    apply (bool_decide_unpack _). vm_compute. exact I. }
  apply (rtc_l _ _ ([Scenario.m1; Cases.m3],
                    [ClaimRace.Locking "alice" "m1"; ClaimRace.Locking "alice" "m3";
                     ClaimRace.Finished "carol" (Resolved [])])).
  { apply (ClaimRace.step_skip [Scenario.m1; Cases.m3]
             [ClaimRace.Locking "alice" "m1"; ClaimRace.Locking "alice" "m3";
              ClaimRace.Issued "carol"]
             2 "carol"); [reflexivity|].
    intros m Hin _. apply list_elem_of_In in Hin. simpl in Hin.
    destruct Hin as [<-|[<-|[]]]; apply (bool_decide_unpack _); vm_compute; exact I. }
  apply (rtc_l _ _ (assign_user "alice" "m1" [Scenario.m1; Cases.m3],
                    [ClaimRace.Finished "alice" (Resolved [with_user "alice" Scenario.m1]);
                     ClaimRace.Locking "alice" "m3";
                     ClaimRace.Finished "carol" (Resolved [])])).
  { apply (ClaimRace.step_update [Scenario.m1; Cases.m3]
             [ClaimRace.Locking "alice" "m1"; ClaimRace.Locking "alice" "m3";
              ClaimRace.Finished "carol" (Resolved [])]
             0 "alice" "m1"); reflexivity. }
  apply rtc_once.
  apply (ClaimRace.step_violation (assign_user "alice" "m1" [Scenario.m1; Cases.m3])
           [ClaimRace.Finished "alice" (Resolved [with_user "alice" Scenario.m1]);
            ClaimRace.Locking "alice" "m3";
            ClaimRace.Finished "carol" (Resolved [])]
           1 "alice" "m3"); reflexivity.
Qed.

(** C1, as first stated, fails when two of the attempts are made for the
    same user: with M = 2 free machines and N = 3 statements, two of them
    for alice, there is a complete execution in which one statement only
    answers a row, one answers no row and alice's second statement fails on
    the uniqueness of [user]; the machine it had locked stays free. *)
Lemma claim_race_same_user_one_winner :
  length (List.filter is_free (fst Cases.same_user_start)) = 2%nat
  /\ length (snd Cases.same_user_start) = 3%nat
  /\ rtc ClaimRace.step Cases.same_user_start Cases.same_user_end
  /\ Forall (fun tx => ClaimRace.finished tx = true) (snd Cases.same_user_end)
  /\ length (omap ClaimRace.won (snd Cases.same_user_end)) = 1%nat
  /\ length (List.filter ClaimRace.starved (snd Cases.same_user_end)) = 1%nat
  /\ snd Cases.same_user_end !! 1%nat
     = Some (ClaimRace.Finished "alice" (Rejected UniqueViolation))
  /\ query_callback (Rejected UniqueViolation) = reject UniqueViolation
  /\ List.filter is_free (fst Cases.same_user_end) = [Cases.m3].
Proof.
  split; [reflexivity|]. split; [reflexivity|]. split; [exact same_user_run|].
  split; [repeat constructor|]. repeat split; reflexivity.
Qed.

(** * Further properties of the service *)

(** ** [getMachineForUser]: failures and what it never does *)

Lemma set_machines_same (w : World) : set_machines (machines w) w = w.
Proof. now destruct w. Qed.

(** X1: without a driver, [getMachineForUser] rejects with the
    not-initialised error before any call is made: the world is untouched. *)
Theorem getMachineForUser_not_initialized (caller : User.t) (w : World) :
  _driver w = None ->
  getMachineForUser caller w = (Rejected driverNotInitializedError, w).
Proof.
  intros Hd. unfold getMachineForUser, then_, assert, reject. now rewrite Hd.
Qed.

(** X2: for a user without a machine, when no machine is free the call
    rejects with the no-machine error after one look-up and one claim
    statement; the table is left as it was and no reconcile is started. *)
Theorem getMachineForUser_starved (caller : User.t) (w : World) (d : Driver) :
  _driver w = Some d ->
  List.find (has_user (User.id caller)) (machines w) = None ->
  List.find is_free (machines w) = None ->
  getMachineForUser caller w
  = (Rejected noMachineFoundError,
     emit (EvClaimQuery (User.id caller)) (emit (EvFindOne (User.id caller)) w)).
Proof.
  intros Hd Hnone Hfree.
  unfold getMachineForUser, then_, assert, resolve, Machine_findOne.
  rewrite Hd. simpl. rewrite Hnone.
  unfold Machine_query_claim, claim_statement. simpl. rewrite Hfree.
  clear. now destruct w.
Qed.

Lemma claim_statement_cases u table :
  (exists rows, fst (claim_statement u table) = Resolved rows)
  \/ fst (claim_statement u table) = Rejected UniqueViolation.
Proof.
  unfold claim_statement. destruct (List.find is_free table); [|left; now eexists].
  destruct (existsb (has_user u) table); [now right | left; now eexists].
Qed.

(** X3: whatever the state, one call of [getMachineForUser] sends at most
    one claim statement, removes no record, asks the driver for no teardown
    and arms or cancels no timer. *)
Theorem getMachineForUser_never_destroys (caller : User.t) (w : World) :
  exists delta,
    log (snd (getMachineForUser caller w)) = delta ++ log w
    /\ List.filter is_destruction delta = []
    /\ (length (List.filter is_claim delta) <= 1)%nat
    /\ timers (snd (getMachineForUser caller w)) = timers w
    /\ _driver (snd (getMachineForUser caller w)) = _driver w.
Proof.
  unfold getMachineForUser, then_, assert, resolve, reject, Machine_findOne.
  destruct (_driver w) as [d|] eqn:Hd; simpl; [|exists []; simpl; repeat split; auto].
  destruct (List.find (has_user (User.id caller)) (machines w)) as [machine|].
  { exists [EvFindOne (User.id caller)]. simpl. repeat split; auto. }
  unfold Machine_query_claim.
  destruct (claim_statement (User.id caller) (machines (emit (EvFindOne (User.id caller)) w)))
    as [[rows|e|] table'] eqn:Hq; simpl.
  - destruct rows as [|row rest].
    + exists [EvClaimQuery (User.id caller); EvFindOne (User.id caller)].
      simpl. repeat split; auto.
    + match goal with
      | |- context [_updateMachinesPool ?w0] =>
          destruct (_updateMachinesPool_frame w0) as (Hf & delta & Hlog & Hx & Hc);
          destruct (_updateMachinesPool w0) as [o w2]
      end.
      destruct Hf as (Hdrv & _ & Htim & _). simpl in *.
      exists (delta ++ [EvClaimQuery (User.id caller); EvFindOne (User.id caller)]).
      assert (Hgoal : log w2 = (delta ++ [EvClaimQuery (User.id caller);
                                          EvFindOne (User.id caller)]) ++ log w
                      /\ timers w2 = timers w /\ _driver w2 = _driver w).
      { rewrite Hlog, <- app_assoc. simpl. repeat split; congruence. }
      destruct Hgoal as (Hl & Ht & Hdr).
      rewrite !List.filter_app, Hx, Hc. simpl.
      destruct o; simpl; repeat split; auto; congruence.
  - exists [EvClaimQuery (User.id caller); EvFindOne (User.id caller)].
    simpl. repeat split; auto.
  - exists [EvClaimQuery (User.id caller); EvFindOne (User.id caller)].
    simpl. repeat split; auto.
Qed.

(** ** The claim statement run on its own *)

Lemma row_with_key table (sub x : Machine) :
  NoDup (id x :: map id table) -> sub ∈ x :: table -> id x = id sub -> x = sub.
Proof.
  intros Hnd Hin Heq. apply NoDup_cons in Hnd. destruct Hnd as [Hx _].
  apply elem_of_cons in Hin. destruct Hin as [->|Hin]; [reflexivity|].
  exfalso. apply Hx. rewrite Heq.
  apply list_elem_of_In, List.in_map, list_elem_of_In, Hin.
Qed.

Lemma has_id_spec i m : has_id i m = true <-> id m = i.
Proof. unfold has_id. apply String.eqb_eq. Qed.

Lemma assign_single_row u table (sub : Machine) :
  NoDup (map id table) -> sub ∈ table ->
  List.filter (has_id (id sub)) (assign_user u (id sub) table) = [with_user u sub].
Proof.
  induction table as [|x t IH]; intros Hnd Hin.
  - now apply not_elem_of_nil in Hin.
  - simpl in Hnd. simpl. destruct (has_id (id sub) x) eqn:E.
    + apply has_id_spec in E. pose proof (row_with_key t sub x Hnd Hin E) as ->.
      apply NoDup_cons in Hnd. destruct Hnd as [Hx Hnd].
      rewrite (assign_user_absent u (id sub) t Hx).
      simpl. unfold has_id at 1. simpl. rewrite String.eqb_refl. f_equal.
      apply filter_nil_not. intros m Hm Hid. apply has_id_spec in Hid.
      apply Hx. rewrite <- Hid. apply list_elem_of_In, List.in_map, list_elem_of_In, Hm.
    + simpl. rewrite E. apply NoDup_cons in Hnd. destruct Hnd as [_ Hnd].
      apply IH; [exact Hnd|].
      apply elem_of_cons in Hin. destruct Hin as [->|Hin]; [|exact Hin].
      unfold has_id in E. now rewrite String.eqb_refl in E.
Qed.

Lemma find_after_assign u table (sub : Machine) :
  NoDup (map id table) -> sub ∈ table -> existsb (has_user u) table = false ->
  List.find (has_user u) (assign_user u (id sub) table) = Some (with_user u sub).
Proof.
  induction table as [|x t IH]; intros Hnd Hin Hex.
  - now apply not_elem_of_nil in Hin.
  - simpl in Hnd, Hex. apply orb_false_iff in Hex. destruct Hex as [Hx Hex].
    simpl. destruct (has_id (id sub) x) eqn:E.
    + apply has_id_spec in E. pose proof (row_with_key t sub x Hnd Hin E) as ->.
      unfold has_user at 1. simpl. now rewrite String.eqb_refl.
    + rewrite Hx. apply NoDup_cons in Hnd. destruct Hnd as [_ Hnd].
      apply IH; [exact Hnd| |exact Hex].
      apply elem_of_cons in Hin. destruct Hin as [->|Hin]; [|exact Hin].
      unfold has_id in E. now rewrite String.eqb_refl in E.
Qed.

(** X4: on a table with unique ids, for a user who owns no machine and with
    a free machine [sub] selected, the claim statement returns exactly that
    one row assigned to the user; afterwards a look-up by user finds this
    row, the number of free machines has dropped by one and every row with
    another id is still there unchanged. *)
Theorem claim_statement_then_lookup (u : UserId) (table : list Machine) (sub : Machine) :
  NoDup (map id table) ->
  List.find (has_user u) table = None ->
  List.find is_free table = Some sub ->
  fst (claim_statement u table) = Resolved [with_user u sub]
  /\ List.find (has_user u) (snd (claim_statement u table)) = Some (with_user u sub)
  /\ (length (List.filter is_free (snd (claim_statement u table))) + 1
      = length (List.filter is_free table))%nat
  /\ (forall m, m ∈ table -> id m <> id sub -> m ∈ snd (claim_statement u table)).
Proof.
  intros Hnd Hnone Hfree.
  pose proof (find_None_existsb _ _ Hnone) as Hex.
  pose proof (List.find_some _ _ Hfree) as [Hin Hsub].
  apply list_elem_of_In in Hin.
  unfold claim_statement. rewrite Hfree, Hex. simpl.
  split; [now rewrite assign_single_row|].
  split; [now apply find_after_assign|].
  split; [now apply (free_count_assign u (id sub) table sub)|].
  intros m Hm Hne. now apply assign_user_other.
Qed.

Lemma owners_after_assign u table (sub : Machine) :
  NoDup (map id table) -> sub ∈ table -> is_free sub = true ->
  omap user (assign_user u (id sub) table) ≡ₚ u :: omap user table.
Proof.
  induction table as [|x t IH]; intros Hnd Hin Hfree.
  - now apply not_elem_of_nil in Hin.
  - simpl in Hnd. simpl. destruct (has_id (id sub) x) eqn:E.
    + apply has_id_spec in E. pose proof (row_with_key t sub x Hnd Hin E) as ->.
      apply NoDup_cons in Hnd. destruct Hnd as [Hx Hnd].
      rewrite (assign_user_absent u (id sub) t Hx).
      unfold is_free in Hfree. simpl. destruct (user sub); [discriminate|]. reflexivity.
    + assert (Hin' : sub ∈ t).
      { apply elem_of_cons in Hin. destruct Hin as [->|Hin]; [|exact Hin].
        unfold has_id in E. now rewrite String.eqb_refl in E. }
      apply NoDup_cons in Hnd. destruct Hnd as [_ Hnd].
      specialize (IH Hnd Hin' Hfree). simpl.
      destruct (user x) as [v|]; simpl.
      * change (list_omap Machine UserId user (assign_user u (id sub) t))
          with (omap user (assign_user u (id sub) t)).
        change (list_omap Machine UserId user t) with (omap user t).
        rewrite IH. apply Permutation_swap.
      * exact IH.
Qed.

(** X5: the claim statement keeps the keys and the ownership invariant: the
    ids of the table are unchanged and, if no two rows had the same user
    before, no two rows have the same user after, whether the statement
    assigns a row, finds none or is refused by the uniqueness constraint. *)
Theorem claim_statement_keeps_ownership (u : UserId) (table : list Machine) :
  NoDup (map id table) ->
  NoDup (omap user table) ->
  map id (snd (claim_statement u table)) = map id table
  /\ NoDup (omap user (snd (claim_statement u table))).
Proof.
  intros Hnd Hown. unfold claim_statement.
  destruct (List.find is_free table) as [sub|] eqn:Hfree; [|now split].
  destruct (existsb (has_user u) table) eqn:Hex; [now split|]. simpl.
  apply List.find_some in Hfree. destruct Hfree as [Hin Hsub].
  apply list_elem_of_In in Hin.
  split; [apply assign_user_ids|].
  rewrite (owners_after_assign u table sub Hnd Hin Hsub).
  apply NoDup_cons. split; [|exact Hown].
  intros Hu. apply list_elem_of_omap in Hu. destruct Hu as (m & Hm & Hum).
  assert (Htrue : existsb (has_user u) table = true).
  { apply List.existsb_exists. exists m. split; [now apply list_elem_of_In|].
    unfold has_user. rewrite Hum. apply String.eqb_refl. }
  congruence.
Qed.

(** ** The in-flight list *)

Lemma remove_awaiting_no_match machine : forall r i arr,
  (forall j q, (i <= j)%nat -> arr !! j = Some q -> pid q <> pid machine) ->
  remove_awaiting machine i r arr = arr.
Proof.
  induction r as [|r IH]; intros i arr Hno; simpl; [reflexivity|].
  destruct (arr !! i) as [q|] eqn:Hq.
  - destruct (Nat.eqb_spec (pid q) (pid machine)) as [Heq|_].
    + exfalso. eapply Hno; [|exact Hq|exact Heq]. lia.
    + apply IH. intros j q' Hj. apply Hno. lia.
  - apply IH. intros j q' Hj. apply Hno. lia.
Qed.

Lemma remove_awaiting_from machine p l2 :
  pid p = pid machine ->
  (forall q, q ∈ l2 -> pid q <> pid machine) ->
  forall l1 done r,
    (forall q, q ∈ l1 -> pid q <> pid machine) ->
    (length l1 < r)%nat ->
    remove_awaiting machine (length done) r (done ++ l1 ++ p :: l2) = done ++ l1 ++ l2.
Proof.
  intros Hp Hl2. induction l1 as [|x l1 IH]; intros done r Hl1 Hr.
  - destruct r as [|r]; [simpl in Hr; lia|]. simpl.
    rewrite lookup_app_r by lia. rewrite Nat.sub_diag. simpl.
    rewrite Hp, Nat.eqb_refl.
    rewrite delete_middle.
    apply remove_awaiting_no_match. intros j q Hj Hq.
    rewrite lookup_app_r in Hq by lia.
    apply Hl2. eapply list_elem_of_lookup_2. exact Hq.
  - destruct r as [|r]; [simpl in Hr; lia|]. simpl.
    rewrite lookup_app_r by lia. rewrite Nat.sub_diag. simpl.
    destruct (Nat.eqb_spec (pid x) (pid machine)) as [Heq|_].
    + exfalso. apply (Hl1 x); [left | exact Heq].
    + specialize (IH (done ++ [x]) r).
      rewrite length_app in IH. simpl in IH. rewrite Nat.add_1_r in IH.
      rewrite <- !app_assoc in IH. simpl in IH. apply IH.
      * intros q Hq. apply Hl1. now right.
      * simpl in Hr. lia.
Qed.

Lemma finally_handler_middle (machine : PromiseObj) (w : World) l1 p l2 :
  _awaitingMachines w = l1 ++ p :: l2 ->
  pid p = pid machine ->
  (forall q, q ∈ l1 ++ l2 -> pid q <> pid machine) ->
  _awaitingMachines (finally_handler machine w) = l1 ++ l2.
Proof.
  intros Harr Hp Hno. unfold finally_handler. simpl. rewrite Harr.
  apply (remove_awaiting_from machine p l2 Hp) with (done := []).
  - intros q Hq. apply Hno. apply elem_of_app. now right.
  - intros q Hq. apply Hno. apply elem_of_app. now left.
  - rewrite length_app. simpl. lia.
Qed.

(** X6: when a creation settles, the handler of [_createMachine] takes its
    promise out of the in-flight list and keeps every other entry in place,
    provided the promise is listed once; a promise that is not listed leaves
    the list as it is.  Nothing but the in-flight list is touched. *)
Theorem finally_handler_removes (machine : PromiseObj) (w : World) :
  (forall l1 p l2,
     _awaitingMachines w = l1 ++ p :: l2 ->
     pid p = pid machine ->
     (forall q, q ∈ l1 ++ l2 -> pid q <> pid machine) ->
     _awaitingMachines (finally_handler machine w) = l1 ++ l2)
  /\ ((forall q, q ∈ _awaitingMachines w -> pid q <> pid machine) ->
      _awaitingMachines (finally_handler machine w) = _awaitingMachines w)
  /\ machines (finally_handler machine w) = machines w
  /\ log (finally_handler machine w) = log w.
Proof.
  split; [|split; [|now split]].
  - intros l1 p l2. apply finally_handler_middle.
  - intros Hno. unfold finally_handler. simpl.
    apply remove_awaiting_no_match. intros j q _ Hq.
    apply Hno. eapply list_elem_of_lookup_2. exact Hq.
Qed.

(** ** One reconcile pass, seen from the in-flight list and the table *)

Section PassShape.

Variable d : Driver.
Variable naming : Config.
Variable P : list Machine -> Prop.
Variable Q : Outcome Machine -> Prop.
Hypothesis HP : forall machineName table,
  P table -> P (snd (driver_createMachine d machineName table)).
Hypothesis HQ : forall machineName table,
  Q (fst (driver_createMachine d machineName table)).

Lemma create_loop_shape k : forall acc w,
  _driver w = Some d ->
  config_store w "machinesName" = Resolved naming ->
  P (machines w) ->
  exists news w1,
    create_loop k acc w = (acc ++ map Resolved news, w1)
    /\ _awaitingMachines w1 = _awaitingMachines w ++ news
    /\ map pid news = seq (next_pid w) k
    /\ Forall (fun p => Q (settles p)) news
    /\ next_pid w1 = (next_pid w + k)%nat
    /\ P (machines w1)
    /\ service_frame w w1.
Proof.
  induction k as [|k IH]; intros acc w Hd Hcfg Hp.
  - exists [], w. simpl. rewrite !app_nil_r. repeat split; auto; lia.
  - simpl. unfold _createMachine, then_, ConfigService_get. rewrite Hcfg. simpl. rewrite Hd.
    pose proof (HP (machinesName naming) (machines w) Hp) as Hp'.
    pose proof (HQ (machinesName naming) (machines w)) as Hq'.
    destruct (driver_createMachine d (machinesName naming) (machines w))
      as [answer table'].
    simpl in Hp', Hq'.
    match goal with
    | |- context [create_loop k ?a ?w0] =>
        destruct (IH a w0) as (news & w1 & Hrun & Haw & Hpids & Hall & Hnext & Hpw & Hfr);
          [exact Hd | exact Hcfg | exact Hp' |]
    end.
    exists ({| pid := next_pid w; settles := answer |} :: news), w1.
    simpl in *.
    split. { rewrite Hrun, <- !app_assoc. reflexivity. }
    split. { rewrite Haw, <- app_assoc. reflexivity. }
    split. { now rewrite Hpids. }
    split. { constructor; assumption. }
    split. { lia. }
    split. { exact Hpw. }
    destruct Hfr as (?&?&?&?&?&?&?). repeat split; assumption.
Qed.

End PassShape.

Lemma settle_all_clears news : forall base w,
  _awaitingMachines w = base ++ news ->
  NoDup (map pid news) ->
  (forall q, q ∈ base -> pid q ∉ map pid news) ->
  Forall (fun p => settles p <> Pending) news ->
  settle_all (map Resolved news) w = (map settles news, set_awaitingMachines base w).
Proof.
  induction news as [|p rest IH]; intros base w Haw Hnd Hbase Hall.
  - simpl. rewrite app_nil_r in Haw. rewrite <- Haw. now destruct w.
  - simpl in Hnd. apply NoDup_cons in Hnd. destruct Hnd as [Hp Hnd].
    inversion Hall as [|? ? Hset Hall']; subst.
    assert (Hrm : _awaitingMachines (finally_handler p w) = base ++ rest).
    { apply (finally_handler_middle p w base p rest Haw eq_refl).
      intros q Hq Heq. apply elem_of_app in Hq. destruct Hq as [Hq|Hq].
      - apply (Hbase q Hq). rewrite Heq. simpl. left.
      - apply Hp. rewrite <- Heq.
        apply list_elem_of_In, List.in_map, list_elem_of_In, Hq. }
    assert (Hsettle : settle (Resolved p) w = (settles p, finally_handler p w)).
    { simpl. destruct (settles p); [reflexivity | reflexivity | contradiction]. }
    change (settle_all (map Resolved (p :: rest)) w)
      with (let (answer, w1) := settle (Resolved p) w in
            let (answers, w2) := settle_all (map Resolved rest) w1 in
            (answer :: answers, w2)).
    rewrite Hsettle.
    rewrite (IH base (finally_handler p w) Hrm Hnd); [reflexivity| |exact Hall'].
    intros q Hq Hin. apply (Hbase q Hq). simpl. now right.
Qed.

Lemma Promise_all_not_pending answers :
  Forall (fun a => a <> Pending) answers -> Promise_all answers <> Pending.
Proof.
  unfold Promise_all. induction answers as [|a rest IH]; intros Hall; [discriminate|].
  inversion Hall as [|? ? Ha Hrest]; subst. specialize (IH Hrest).
  destruct a as [m|e|]; simpl; [|discriminate|contradiction].
  destruct (first_rejection rest); [discriminate|].
  destruct (all_values rest); [discriminate | exact IH].
Qed.

Lemma Promise_all_resolved answers :
  Forall (fun a => exists m, a = Resolved m) answers ->
  exists ms, Promise_all answers = Resolved ms /\ length ms = length answers.
Proof.
  unfold Promise_all. induction answers as [|a rest IH]; intros Hall.
  - exists []. now split.
  - inversion Hall as [|? ? [m ->] Hrest]; subst.
    destruct (IH Hrest) as (ms & Hms & Hlen). simpl.
    destruct (first_rejection rest); [discriminate|].
    destruct (all_values rest) as [vs|]; [|discriminate].
    inversion Hms; subst. exists (m :: ms). simpl. split; [reflexivity | congruence].
Qed.

Lemma seq_fresh (base : list PromiseObj) (start k : nat) (q : PromiseObj) :
  (forall p, p ∈ base -> (pid p < start)%nat) -> q ∈ base -> pid q ∉ seq start k.
Proof.
  intros Hfresh Hq Hin. apply list_elem_of_In, List.in_seq in Hin.
  specialize (Hfresh q Hq). lia.
Qed.

(** X7: with a driver whose creations all settle (resolve or reject), a
    readable configuration and in-flight entries numbered below the promise
    counter, one reconcile pass settles, and leaves the in-flight list
    exactly as it found it: every creation it dispatched has been taken out
    again, failed ones included, and no older entry was removed. *)
Theorem reconcile_restores_in_flight (w : World) (d : Driver) (pool naming : Config) :
  _driver w = Some d ->
  config_store w "machinePoolSize" = Resolved pool ->
  config_store w "machinesName" = Resolved naming ->
  (forall machineName table, fst (driver_createMachine d machineName table) <> Pending) ->
  (forall p, p ∈ _awaitingMachines w -> (pid p < next_pid w)%nat) ->
  fst (_updateMachinesPool w) <> Pending
  /\ _awaitingMachines (snd (_updateMachinesPool w)) = _awaitingMachines w
  /\ (forall p, p ∈ _awaitingMachines (snd (_updateMachinesPool w)) ->
        (pid p < next_pid (snd (_updateMachinesPool w)))%nat).
Proof.
  intros Hd Hpool Hname Hsettles Hfresh.
  unfold _updateMachinesPool, then_, assert, resolve, ConfigService_get, Machine_count_free.
  rewrite Hd. simpl. rewrite Hpool. simpl.
  match goal with
  | |- context [create_loop ?k [] ?w0] =>
      destruct (create_loop_shape d naming (fun _ => True) (fun a => a <> Pending)
                  (fun _ _ _ => I) Hsettles k [] w0 Hd Hname I)
        as (news & w1 & Hrun & Haw & Hpids & Hall & Hnext & _ & _)
  end.
  rewrite Hrun. simpl in *.
  rewrite (settle_all_clears news (_awaitingMachines w) w1 Haw).
  - simpl. split; [|split].
    + apply Promise_all_not_pending. apply Forall_forall. intros a Ha.
      apply list_elem_of_In, List.in_map_iff in Ha. destruct Ha as (p & <- & Hp).
      rewrite Forall_forall in Hall. apply Hall. now apply list_elem_of_In.
    + reflexivity.
    + intros p Hp. specialize (Hfresh p Hp). lia.
  - rewrite Hpids. apply NoDup_ListNoDup, List.seq_NoDup.
  - intros q Hq. rewrite Hpids. eapply seq_fresh; eassumption.
  - exact Hall.
Qed.

Lemma settle_all_answers news : forall w,
  fst (settle_all (map Resolved news) w) = map settles news.
Proof.
  induction news as [|p rest IH]; intros w; [reflexivity|].
  change (settle_all (map Resolved (p :: rest)) w)
    with (let (answer, w1) := settle (Resolved p) w in
          let (answers, w2) := settle_all (map Resolved rest) w1 in
          (answer :: answers, w2)).
  assert (Hfst : fst (settle (Resolved p) w) = settles p)
    by (simpl; now destruct (settles p)).
  destruct (settle (Resolved p) w) as [answer w1]. simpl in Hfst. subst answer.
  specialize (IH w1). destruct (settle_all (map Resolved rest) w1) as [answers w2].
  simpl in *. now rewrite IH.
Qed.

Lemma find_app_Some {A} (f : A -> bool) (l k : list A) (x : A) :
  List.find f l = Some x -> List.find f (l ++ k) = Some x.
Proof.
  induction l as [|a l IH]; simpl; [discriminate|].
  destruct (f a); [trivial | exact IH].
Qed.

(** With a driver that only adds records and whose creations resolve, a
    pass resolves and the rows that were in the table are still its first
    rows afterwards. *)
Lemma pass_with_appending_driver (w : World) (d : Driver) (pool naming : Config) :
  _driver w = Some d ->
  config_store w "machinePoolSize" = Resolved pool ->
  config_store w "machinesName" = Resolved naming ->
  (forall machineName table, exists m extra,
      driver_createMachine d machineName table = (Resolved m, table ++ extra)) ->
  exists ms extra w2,
    _updateMachinesPool w = (Resolved ms, w2)
    /\ machines w2 = machines w ++ extra
    /\ _driver w2 = Some d.
Proof.
  intros Hd Hpool Hname Hdrv.
  unfold _updateMachinesPool, then_, assert, resolve, ConfigService_get, Machine_count_free.
  rewrite Hd. simpl. rewrite Hpool. simpl.
  assert (HP : forall machineName table,
             (exists extra, table = machines w ++ extra) ->
             exists extra, snd (driver_createMachine d machineName table)
                           = machines w ++ extra).
  { intros machineName table (extra & ->).
    destruct (Hdrv machineName (machines w ++ extra)) as (m & extra' & ->).
    exists (extra ++ extra'). simpl. now rewrite app_assoc. }
  assert (HQ : forall machineName table,
             exists m, fst (driver_createMachine d machineName table) = Resolved m).
  { intros machineName table. destruct (Hdrv machineName table) as (m & extra & ->).
    now exists m. }
  assert (Hstart : exists extra, machines w = machines w ++ extra).
  { exists []. now rewrite app_nil_r. }
  match goal with
  | |- context [create_loop ?k [] ?w0] =>
      destruct (create_loop_shape d naming
                  (fun t => exists extra, t = machines w ++ extra)
                  (fun a => exists m, a = Resolved m) HP HQ k [] w0 Hd Hname Hstart)
        as (news & w1 & Hrun & _ & _ & Hall & _ & (extra & Hext) & Hfr)
  end.
  rewrite Hrun. simpl.
  pose proof (settle_all_answers news w1) as Hans.
  destruct (settle_all_world (map Resolved news) w1) as [l Hl].
  destruct (settle_all (map Resolved news) w1) as [answers w2].
  simpl in *. subst answers w2.
  destruct (Promise_all_resolved (map settles news)) as (ms & Hms & _).
  { apply Forall_forall. intros a Ha.
    apply list_elem_of_In, List.in_map_iff in Ha. destruct Ha as (p & <- & Hp).
    rewrite Forall_forall in Hall. apply Hall. now apply list_elem_of_In. }
  rewrite Hms. exists ms, extra, (set_awaitingMachines l w1).
  destruct Hfr as (Hdr & _). simpl in *. repeat split; congruence.
Qed.

(** X8: claim, then ask again.  With a driver that only adds records and
    whose creations resolve, a readable configuration and a table with
    unique ids, a user without a machine who finds one free is handed that
    machine, and the next call returns the same machine after a look-up
    only: no second claim statement is sent. *)
Theorem getMachineForUser_claim_then_again (caller : User.t) (w : World) (d : Driver)
    (pool naming : Config) (sub : Machine) :
  _driver w = Some d ->
  config_store w "machinePoolSize" = Resolved pool ->
  config_store w "machinesName" = Resolved naming ->
  (forall machineName table, exists m extra,
      driver_createMachine d machineName table = (Resolved m, table ++ extra)) ->
  NoDup (map id (machines w)) ->
  List.find (has_user (User.id caller)) (machines w) = None ->
  List.find is_free (machines w) = Some sub ->
  fst (getMachineForUser caller w) = Resolved (with_user (User.id caller) sub)
  /\ fst (getMachineForUser caller (snd (getMachineForUser caller w)))
     = Resolved (with_user (User.id caller) sub)
  /\ log (snd (getMachineForUser caller (snd (getMachineForUser caller w))))
     = EvFindOne (User.id caller) :: log (snd (getMachineForUser caller w)).
Proof.
  intros Hd Hpool Hname Hdrv Hnd Hnone Hfree.
  pose proof (find_None_existsb _ _ Hnone) as Hex.
  pose proof (List.find_some _ _ Hfree) as [Hin _]. apply list_elem_of_In in Hin.
  set (u := User.id caller) in *.
  set (w1 := emit (EvClaimQuery u)
               (set_machines (assign_user u (id sub) (machines w)) (emit (EvFindOne u) w))).
  destruct (pass_with_appending_driver w1 d pool naming Hd Hpool Hname Hdrv)
    as (ms & extra & w2 & Hpass & Htable & Hd2).
  assert (Hfirst : getMachineForUser caller w = (Resolved (with_user u sub), w2)).
  { unfold getMachineForUser, then_, assert, resolve, Machine_findOne.
    rewrite Hd. simpl. fold u. rewrite Hnone.
    unfold Machine_query_claim, claim_statement. simpl. rewrite Hfree, Hex.
    rewrite (assign_single_row u (machines w) sub Hnd Hin).
    fold w1. now rewrite Hpass. }
  assert (Hfound : List.find (has_user u) (machines w2) = Some (with_user u sub)).
  { rewrite Htable. apply find_app_Some. subst w1. simpl.
    now apply find_after_assign. }
  rewrite Hfirst. simpl.
  unfold getMachineForUser, then_, assert, resolve, Machine_findOne.
  rewrite Hd2. simpl. fold u. rewrite Hfound. simpl. now repeat split.
Qed.

(** ** A pass that cannot read the machine name *)

Lemma create_loop_unreadable (e : Error) k : forall acc w,
  config_store w "machinesName" = Rejected e ->
  exists n,
    create_loop k acc w
    = (acc ++ replicate k (Rejected e),
       Nat.iter n (emit (EvConfigGet "machinesName")) w).
Proof.
  induction k as [|k IH]; intros acc w Hcfg.
  - exists 0%nat. simpl. now rewrite app_nil_r.
  - simpl. unfold _createMachine, then_, ConfigService_get. rewrite Hcfg.
    destruct (IH (acc ++ [Rejected e]) (emit (EvConfigGet "machinesName") w) Hcfg)
      as (n & Hrun).
    rewrite Hrun. exists (S n). rewrite <- app_assoc. simpl. f_equal.
    clear. induction n as [|n IHn]; [reflexivity|]. simpl. now rewrite IHn.
Qed.

Lemma settle_all_rejected (e : Error) k : forall w,
  settle_all (replicate k (Rejected e)) w = (replicate k (Rejected e), w).
Proof.
  induction k as [|k IH]; intros w; [reflexivity|].
  simpl. now rewrite IH.
Qed.

Lemma iter_emit_frame (ev : Event) n (w : World) :
  machines (Nat.iter n (emit ev) w) = machines w
  /\ _awaitingMachines (Nat.iter n (emit ev) w) = _awaitingMachines w
  /\ log (Nat.iter n (emit ev) w) = replicate n ev ++ log w.
Proof.
  induction n as [|n (Hm & Ha & Hl)]; simpl; [now repeat split|].
  rewrite Hm, Ha, Hl. now repeat split.
Qed.

(** X9: when the machine name cannot be read and the pass finds a deficit,
    the pass rejects with the error of the configuration read; it has asked
    the driver for nothing, and the table and the in-flight list are as
    before. *)
Theorem reconcile_unreadable_name (w : World) (d : Driver) (pool : Config) (e : Error) :
  _driver w = Some d ->
  config_store w "machinePoolSize" = Resolved pool ->
  config_store w "machinesName" = Rejected e ->
  0 < machinePoolSize pool + Z.of_nat (length (_awaitingMachines w))
      - Z.of_nat (length (List.filter is_free (machines w))) ->
  fst (_updateMachinesPool w) = Rejected e
  /\ machines (snd (_updateMachinesPool w)) = machines w
  /\ _awaitingMachines (snd (_updateMachinesPool w)) = _awaitingMachines w
  /\ exists delta,
       log (snd (_updateMachinesPool w)) = delta ++ log w
       /\ List.filter is_creation delta = [].
Proof.
  intros Hd Hpool Hname Hdeficit.
  unfold _updateMachinesPool, then_, assert, resolve, ConfigService_get, Machine_count_free.
  rewrite Hd. simpl. rewrite Hpool. simpl.
  match goal with
  | |- context [create_loop ?k [] ?w0] =>
      destruct (create_loop_unreadable e k [] w0 Hname) as (n & Hrun);
      assert (Hk : exists k', k = S k') by (exists (Nat.pred k); lia)
  end.
  rewrite Hrun. simpl. rewrite settle_all_rejected. simpl.
  destruct Hk as (k' & ->).
  match goal with
  | |- context [Nat.iter n ?f ?w0] =>
      destruct (iter_emit_frame (EvConfigGet "machinesName") n w0) as (Hm & Ha & Hl)
  end.
  simpl in *. rewrite Hm, Ha, Hl.
  split; [reflexivity|]. split; [reflexivity|]. split; [reflexivity|].
  exists (replicate n (EvConfigGet "machinesName") ++ [EvCount; EvConfigGet "machinePoolSize"]).
  rewrite <- app_assoc. split; [reflexivity|].
  rewrite List.filter_app. simpl. rewrite app_nil_r.
  clear. induction n as [|n IH]; [reflexivity | exact IH].
Qed.

(** ** [initialize]: the first call *)

(** The log of a pass that can read its configuration. *)
Lemma pass_log (w : World) (d : Driver) (pool naming : Config) :
  _driver w = Some d ->
  config_store w "machinePoolSize" = Resolved pool ->
  config_store w "machinesName" = Resolved naming ->
  log (snd (_updateMachinesPool w))
  = dispatched (machinesName naming) (next_pid w)
      (Z.to_nat (machinePoolSize pool + Z.of_nat (length (_awaitingMachines w))
                 - Z.of_nat (length (List.filter is_free (machines w)))))
    ++ [EvCount; EvConfigGet "machinePoolSize"] ++ log w.
Proof.
  intros Hd Hpool Hname.
  unfold _updateMachinesPool, then_, assert, resolve, ConfigService_get, Machine_count_free.
  rewrite Hd. simpl. rewrite Hpool. simpl.
  match goal with
  | |- context [create_loop ?k [] ?w0] =>
      destruct (create_loop_dispatch d naming k [] w0 Hd Hname) as (Hlog & _);
      destruct (create_loop k [] w0) as [ms w1]
  end.
  destruct (settle_all_world ms w1) as [l Hl].
  destruct (settle_all ms w1) as [answers w2]. simpl in *. subst w2. simpl.
  exact Hlog.
Qed.

Section InitializeFacts.

Variable rt : Runtime.

(** X10: a first [initialize] whose configuration names a known driver and
    whose driver initialises resolves, sets the driver and starts the
    reconcile without waiting for it: it resolves whatever becomes of the
    pass (unreadable pool size, creations that fail or never settle).  The
    pass it starts dispatches max(0, machinePoolSize + in-flight - free)
    creations when its configuration is readable; nothing is destroyed and
    no claim statement is sent. *)
Theorem initialize_first_call (w : World) (cfg : Config) (d : Driver) :
  _driver w = None ->
  _initializing w = None ->
  config_store w "iaas" = Resolved cfg ->
  drivers rt (iaas cfg) = Some d ->
  driver_initialize d = Resolved tt ->
  fst (initialize rt w) = Resolved tt
  /\ _driver (snd (initialize rt w)) = Some d
  /\ _initializing (snd (initialize rt w)) = Some (Resolved tt)
  /\ exists delta,
       log (snd (initialize rt w))
       = delta ++ [EvDriverInitialize; EvDriverNew (iaas cfg); EvConfigGet "iaas"] ++ log w
       /\ List.filter is_destruction delta = []
       /\ List.filter is_claim delta = []
       /\ (forall pool naming,
             config_store w "machinePoolSize" = Resolved pool ->
             config_store w "machinesName" = Resolved naming ->
             Z.of_nat (length (List.filter is_creation delta))
             = Z.max 0 (machinePoolSize pool + Z.of_nat (length (_awaitingMachines w))
                        - Z.of_nat (length (List.filter is_free (machines w))))).
Proof.
  intros Hd Hi Hcfg Hkey Hinit.
  unfold initialize, then_, assert, resolve, ConfigService_get.
  rewrite Hd. cbn [is_null]. rewrite Hi, Hcfg, Hkey, Hinit. cbn [fst snd].
  set (w0 := emit EvDriverInitialize
               (emit (EvDriverNew (iaas cfg))
                  (set_driver (Some d) (emit (EvConfigGet "iaas") w)))).
  destruct (_updateMachinesPool_frame w0) as ((Hdrv & _) & delta & Hlog & Hx & Hc).
  unfold forget. cbn [_driver _initializing log set_initializing].
  split; [reflexivity|]. split; [now rewrite Hdrv|]. split; [reflexivity|].
  exists delta. split; [exact Hlog|]. split; [exact Hx|]. split; [exact Hc|].
  intros pool naming Hpool Hname.
  pose proof (pass_log w0 d pool naming eq_refl Hpool Hname) as Hexact.
  rewrite Hlog in Hexact. subst w0. simpl in Hexact.
  match type of Hexact with
  | _ = dispatched ?n ?p ?k ++ _ =>
      destruct (dispatched_counts n k p) as (Hcount & _);
      assert (Hdelta : delta = dispatched n p k ++ [EvCount; EvConfigGet "machinePoolSize"])
  end.
  { apply (app_inv_tail (EvDriverInitialize :: EvDriverNew (iaas cfg)
                           :: EvConfigGet "iaas" :: log w)).
    rewrite Hexact, <- app_assoc. reflexivity. }
  rewrite Hdelta, List.filter_app, length_app, Hcount. simpl. lia.
Qed.

Lemma drivers_unknown_key (key : string) :
  key ∉ ["manual"; "aws"; "dummy"; "openstack"; "constructor"] ->
  drivers rt key = None.
Proof.
  intros Hkey. unfold drivers.
  repeat match goal with
         | |- context [String.eqb key ?k] =>
             destruct (String.eqb_spec key k) as [->|_];
             [exfalso; apply Hkey; set_solver|]
         end.
  reflexivity.
Qed.

(** X11: a first [initialize] that fails before a driver exists (the
    configuration cannot be read, or the key it gives is none of the four
    keys of the driver table and is not [constructor] either) leaves the
    driver unset and keeps its rejected promise: every later call, in
    whatever state the rest of the world is, returns that same rejection and
    does nothing, so the initialisation cannot be retried. *)
Theorem initialize_failure_is_kept (w : World) (e : Error) :
  _driver w = None ->
  _initializing w = None ->
  (config_store w "iaas" = Rejected e
   \/ exists cfg, config_store w "iaas" = Resolved cfg
                  /\ (iaas cfg ∉ ["manual"; "aws"; "dummy"; "openstack"; "constructor"])
                  /\ e = TypeError) ->
  fst (initialize rt w) = Rejected e
  /\ _driver (snd (initialize rt w)) = None
  /\ forall w',
       _driver w' = None ->
       _initializing w' = _initializing (snd (initialize rt w)) ->
       initialize rt w' = (Rejected e, w').
Proof.
  intros Hd Hi Hcause.
  assert (Hfirst : fst (initialize rt w) = Rejected e
                   /\ _driver (snd (initialize rt w)) = None
                   /\ _initializing (snd (initialize rt w)) = Some (Rejected e)).
  { unfold initialize, then_, assert, resolve, ConfigService_get.
    rewrite Hd. cbn [is_null]. rewrite Hi.
    destruct Hcause as [Hcfg|(cfg & Hcfg & Hkey & ->)].
    - rewrite Hcfg. simpl. now rewrite Hd.
    - rewrite Hcfg, (drivers_unknown_key _ Hkey). simpl. now rewrite Hd. }
  destruct Hfirst as (Hout & Hdrv & Hkept).
  split; [exact Hout|]. split; [exact Hdrv|].
  intros w' Hd' Hi'. rewrite Hkept in Hi'.
  unfold initialize, then_, assert, resolve. rewrite Hd'. cbn [is_null]. now rewrite Hi'.
Qed.

(** X12: when the driver's own [initialize] rejects, [initialize] rejects
    with the same error and starts no reconcile, but the driver variable is
    already set: a later [initialize] is refused as already initialised, and
    [getMachineForUser] no longer fails with the not-initialised error. *)
Theorem initialize_driver_failure (w : World) (cfg : Config) (d : Driver) (e : Error) :
  _driver w = None ->
  _initializing w = None ->
  config_store w "iaas" = Resolved cfg ->
  drivers rt (iaas cfg) = Some d ->
  driver_initialize d = Rejected e ->
  fst (initialize rt w) = Rejected e
  /\ _driver (snd (initialize rt w)) = Some d
  /\ log (snd (initialize rt w))
     = [EvDriverInitialize; EvDriverNew (iaas cfg); EvConfigGet "iaas"] ++ log w
  /\ initialize rt (snd (initialize rt w))
     = (Rejected driverAlreadyInitializedError, snd (initialize rt w))
  /\ forall caller,
       fst (getMachineForUser caller (snd (initialize rt w)))
       <> Rejected driverNotInitializedError.
Proof.
  intros Hd Hi Hcfg Hkey Hinit.
  assert (Hrun : initialize rt w
                 = (Rejected e,
                    set_initializing (Some (Rejected e))
                      (emit EvDriverInitialize
                         (emit (EvDriverNew (iaas cfg))
                            (set_driver (Some d) (emit (EvConfigGet "iaas") w)))))).
  { unfold initialize, then_, assert, resolve, ConfigService_get.
    rewrite Hd. cbn [is_null]. now rewrite Hi, Hcfg, Hkey, Hinit. }
  rewrite Hrun. cbn [fst snd].
  split; [reflexivity|]. split; [reflexivity|]. split; [reflexivity|].
  split; [reflexivity|].
  intros caller.
  unfold getMachineForUser, then_, assert, resolve, Machine_findOne. simpl.
  destruct (List.find (has_user (User.id caller)) (machines w)); [discriminate|].
  unfold Machine_query_claim. simpl.
  destruct (claim_statement_cases (User.id caller) (machines w)) as [(rows & Hq)|Hq];
    destruct (claim_statement (User.id caller) (machines w)) as [res table'];
    simpl in Hq; subst res; simpl; [|discriminate].
  destruct rows as [|row rest]; [discriminate|].
  match goal with
  | |- context [_updateMachinesPool ?w0] => destruct (_updateMachinesPool w0) as [[| |] ?]
  end; discriminate.
Qed.

End InitializeFacts.

(** ** Renewals ([sessionOpen], [sessionEnded]) *)






(** X14: a renewal fails without touching anything when it cannot go on:
    if the session duration cannot be read it rejects with that error after
    the configuration read; if the user has no machine it rejects with a
    [TypeError] after the look-up.  In both cases no expiry is written and
    no timer is armed. *)
Theorem renewal_failures (caller : User.t) (w : World) :
  (forall e,
     config_store w "sessionDuration" = Rejected e ->
     sessionOpen caller w = (Rejected e, emit (EvConfigGet "sessionDuration") w))
  /\ (forall cfg,
        config_store w "sessionDuration" = Resolved cfg ->
        List.find (has_user (User.id caller)) (machines w) = None ->
        sessionOpen caller w
        = (Rejected TypeError,
           emit (EvFindOne (User.id caller)) (emit (EvConfigGet "sessionDuration") w))).
Proof.
  split.
  - intros e Hcfg.
    unfold sessionOpen, increaseUsersMachineEndDate, then_, ConfigService_get.
    now rewrite Hcfg.
  - intros cfg Hcfg Hnone.
    unfold sessionOpen, increaseUsersMachineEndDate, then_, ConfigService_get,
      Machine_findOne.
    rewrite Hcfg. simpl. now rewrite Hnone.
Qed.

(** ** The deferred check *)

Lemma filter_negb_twice {A} (f : A -> bool) (l : list A) :
  List.filter (fun x => negb (f x)) (List.filter (fun x => negb (f x)) l)
  = List.filter (fun x => negb (f x)) l.
Proof.
  induction l as [|x l IH]; [reflexivity|]. simpl.
  destruct (f x) eqn:E; simpl; [exact IH|]. rewrite E. simpl. now rewrite IH.
Qed.

Section CheckFacts.

Variable rt : Runtime.

Lemma terminate_table (machine : Machine) (w : World) :
  machines (snd (_terminateMachine machine w))
  = List.filter (fun m => negb (has_id (id machine) m)) (machines w)
  /\ timers (snd (_terminateMachine machine w)) = timers w
  /\ _awaitingMachines (snd (_terminateMachine machine w)) = _awaitingMachines w.
Proof.
  unfold _terminateMachine, then_, Machine_destroy. simpl.
  destruct (_driver w); now repeat split.
Qed.

(** X15: whatever the probe answers and whatever the state, a deferred check
    for a machine leaves every record with another id in the table, in
    order, adds no record, and touches neither the timers nor the in-flight
    list. *)
Theorem shouldTerminate_only_that_machine (machine : Machine) (w : World) :
  List.filter (fun m => negb (has_id (id machine) m))
    (machines (snd (_shouldTerminateMachine rt machine w)))
  = List.filter (fun m => negb (has_id (id machine) m)) (machines w)
  /\ (forall m, m ∈ machines (snd (_shouldTerminateMachine rt machine w)) ->
        m ∈ machines w)
  /\ timers (snd (_shouldTerminateMachine rt machine w)) = timers w
  /\ _awaitingMachines (snd (_shouldTerminateMachine rt machine w)) = _awaitingMachines w.
Proof.
  unfold _shouldTerminateMachine, forget, then_. cbn [snd].
  destruct (isSessionActive rt machine w) as [[active|e|] w1] eqn:Hprobe;
    destruct (isSessionActive_world rt machine w _ _ Hprobe) as [n ->];
    try (simpl; now repeat split).
  destruct active; cbn [negb]; [simpl; now repeat split|].
  match goal with
  | |- context [date_lt ?a ?b] => destruct (date_lt a b)
  end; [|simpl; now repeat split].
  cbn [snd].
  match goal with
  | |- context [_terminateMachine machine ?w0] =>
      destruct (terminate_table machine w0) as (Hm & Ht & Ha)
  end.
  rewrite Hm, Ht, Ha. simpl. split; [apply filter_negb_twice|].
  split; [|now split].
  intros m Hin. apply list_elem_of_In, List.filter_In in Hin.
  now apply list_elem_of_In.
Qed.

(** X16: if the check fires while no driver is set (a renewal made before
    [initialize]), the probe reports no active session and the expiry held
    by the check is in the past, the record is removed from the table but
    the driver is never asked to destroy the machine. *)
Theorem shouldTerminate_without_driver (machine : Machine) (w w1 : World) :
  _driver w = None ->
  isSessionActive rt machine w = (Resolved false, w1) ->
  date_lt (endDate machine) (clock w) = true ->
  stored (id machine) (snd (_shouldTerminateMachine rt machine w)) = None
  /\ log (snd (_shouldTerminateMachine rt machine w))
     = EvDestroy (id machine) :: EvHttpGet (plazaAddr machine) :: log w.
Proof.
  intros Hd Hprobe Hlt.
  destruct (isSessionActive_world rt machine w _ _ Hprobe) as [n Hw1].
  rewrite (shouldTerminate_unfold rt machine w w1 false Hprobe). cbn [negb].
  subst w1. cbn [clock set_next_uuid emit]. rewrite Hlt.
  unfold _terminateMachine, then_, Machine_destroy. simpl. rewrite Hd. simpl.
  unfold stored. simpl. split; [apply find_filter_negb | reflexivity].
Qed.

End CheckFacts.

(** ** [machines()] and [driverName()] *)

Lemma all_of_resolved_values {A} (values : list A) :
  first_rejection_of (map Resolved values) = None
  /\ all_values_of (map Resolved values) = Some values.
Proof.
  induction values as [|v vs [Hrej Hall]]; [now split|]. simpl. now rewrite Hall.
Qed.

Lemma Promise_all_of_resolved {A} (answers : list (Outcome A)) (values : list A) :
  Promise_all_of answers = Resolved values <-> answers = map Resolved values.
Proof.
  split.
  - unfold Promise_all_of. revert values.
    induction answers as [|a rest IH]; intros values H.
    + simpl in H. now inversion H.
    + destruct a as [v|e|]; simpl in H; [|discriminate|].
      * destruct (first_rejection_of rest); [discriminate|].
        destruct (all_values_of rest) as [vs|]; [|discriminate].
        inversion H; subst. simpl. f_equal. now apply IH.
      * destruct (first_rejection_of rest); discriminate.
  - intros ->. unfold Promise_all_of.
    destruct (all_of_resolved_values values) as [-> ->]. reflexivity.
Qed.

Lemma Promise_all_of_rejected {A} (answers : list (Outcome A)) (e : Error) :
  Rejected e ∈ answers -> exists e', Promise_all_of answers = Rejected e'.
Proof.
  unfold Promise_all_of. induction answers as [|a rest IH]; intros Hin.
  - now apply not_elem_of_nil in Hin.
  - apply elem_of_cons in Hin. destruct a as [v|e0|]; simpl; try (eexists; reflexivity).
    + destruct Hin as [Heq|Hin]; [discriminate|].
      destruct (IH Hin) as [e' He'].
      destruct (first_rejection_of rest); [eexists; reflexivity|].
      destruct (all_values_of rest); discriminate.
    + destruct Hin as [Heq|Hin]; [discriminate|].
      destruct (IH Hin) as [e' He'].
      destruct (first_rejection_of rest); [eexists; reflexivity|].
      destruct (all_values_of rest); discriminate.
Qed.

Section ListingFacts.

Variable getServer : Driver -> MachineId -> Outcome ServerStatus.

Lemma with_status_resolved d m o :
  with_status getServer d m = Resolved o ->
  object o = m
  /\ exists server, getServer d (id m) = Resolved server /\ status server = object_status o.
Proof.
  unfold with_status. destruct (getServer d (id m)) as [server|e|]; try discriminate.
  intros H. inversion H; subst. simpl. split; [reflexivity|]. now exists server.
Qed.

Lemma map_with_status_resolved d found : forall l,
  map (with_status getServer d) found = map Resolved l ->
  map object l = found
  /\ forall o, o ∈ l ->
       exists server, getServer d (id (object o)) = Resolved server
                      /\ status server = object_status o.
Proof.
  induction found as [|m rest IH]; intros [|o l] H; simpl in H; try discriminate.
  - split; [reflexivity|]. intros o Ho. now apply not_elem_of_nil in Ho.
  - inversion H as [[Ho Hl]]. destruct (with_status_resolved d m o Ho) as (Hobj & Hsrv).
    destruct (IH l Hl) as (Hmap & Hall). split; [simpl; now rewrite Hobj, Hmap|].
    intros o' Ho'. apply elem_of_cons in Ho'. destruct Ho' as [->|Ho'].
    + now rewrite Hobj.
    + now apply Hall.
Qed.

(** X17: [machines()] and [driverName()] throw a [TypeError] when no driver
    is set.  With a driver, a resolved [machines()] lists exactly the records
    whose type is the driver's name, in table order, each with the status
    that [getServer] reported for its id; it resolves when [getServer]
    resolves for each of these records and rejects as soon as it rejects
    for one of them. *)
Theorem machines_lists_driver_type (w : World) :
  (_driver w = None ->
     machines_ getServer w = Throws TypeError /\ driverName w = Throws TypeError)
  /\ (forall d, _driver w = Some d ->
        driverName w = Returns (driver_name d)
        /\ (forall l, machines_ getServer w = Returns (Resolved l) ->
              map object l = List.filter (has_type (driver_name d)) (machines w)
              /\ forall o, o ∈ l ->
                   type (object o) = driver_name d
                   /\ exists server,
                        getServer d (id (object o)) = Resolved server
                        /\ status server = object_status o)
        /\ ((forall m, m ∈ machines w -> type m = driver_name d ->
                       exists server, getServer d (id m) = Resolved server) ->
            exists l, machines_ getServer w = Returns (Resolved l))
        /\ (forall m e, m ∈ machines w -> type m = driver_name d ->
                        getServer d (id m) = Rejected e ->
            exists e', machines_ getServer w = Returns (Rejected e'))).
Proof.
  split.
  - intros Hd. unfold machines_, driverName. now rewrite Hd.
  - intros d Hd. unfold machines_, driverName. rewrite Hd.
    split; [reflexivity|]. split; [|split].
    + intros l Hl. inversion Hl as [Hall]. apply Promise_all_of_resolved in Hall.
      destruct (map_with_status_resolved d _ l Hall) as (Hmap & Hsrv).
      split; [exact Hmap|]. intros o Ho. split; [|now apply Hsrv].
      assert (Hin : In (object o) (List.filter (has_type (driver_name d)) (machines w))).
      { rewrite <- Hmap. apply List.in_map. now apply list_elem_of_In. }
      apply List.filter_In in Hin. destruct Hin as [_ Ht]. now apply String.eqb_eq in Ht.
    + intros Hok.
      assert (Hall : forall found,
                 (forall m, In m found -> exists server, getServer d (id m) = Resolved server) ->
                 exists l, map (with_status getServer d) found = map Resolved l).
      { induction found as [|m rest IH]; intros Hf; [now exists []|].
        destruct (Hf m (or_introl eq_refl)) as [server Hs].
        destruct IH as [l Hl]; [intros m' Hm'; apply Hf; now right|].
        exists ({| object := m; object_status := status server |} :: l).
        simpl. unfold with_status at 1. now rewrite Hs, Hl. }
      destruct (Hall (List.filter (has_type (driver_name d)) (machines w))) as [l Hl].
      { intros m Hm. apply List.filter_In in Hm. destruct Hm as [Hin Ht].
        apply Hok; [now apply list_elem_of_In | now apply String.eqb_eq in Ht]. }
      exists l. f_equal. now apply Promise_all_of_resolved.
    + intros m e Hin Ht Hrej.
      destruct (Promise_all_of_rejected
                  (map (with_status getServer d)
                     (List.filter (has_type (driver_name d)) (machines w))) e) as [e' He'].
      { apply list_elem_of_In, List.in_map_iff. exists m. split.
        - unfold with_status. now rewrite Hrej.
        - apply List.filter_In. split; [now apply list_elem_of_In|].
          unfold has_type. rewrite Ht. apply String.eqb_refl. }
      exists e'. now rewrite He'.
Qed.

End ListingFacts.

(** ** The user model of the front end *)

Lemma append_not_empty (a b : string) : a <> "" -> String.append a b <> "".
Proof. destruct a; [congruence | discriminate]. Qed.

Lemma truthy_text (a : option string) : UserModel.truthy a = true -> UserModel.text a <> "".
Proof.
  destruct a as [s|]; simpl; [|discriminate].
  destruct (String.eqb_spec s ""); [discriminate | trivial].
Qed.

(** X18: [fullName] never yields the empty string, and the email only
    matters when a name is missing: with a non-empty first and last name
    the result is the same whatever the email is. *)
Theorem fullName_never_empty (this : UserModel.t) :
  UserModel.fullName this <> ""
  /\ (UserModel.truthy (UserModel.firstName this) = true ->
      UserModel.truthy (UserModel.lastName this) = true ->
      forall other,
        UserModel.fullName
          {| UserModel.email := other; UserModel.isAdmin := UserModel.isAdmin this;
             UserModel.firstName := UserModel.firstName this;
             UserModel.lastName := UserModel.lastName this |}
        = UserModel.fullName this).
Proof.
  split.
  - unfold UserModel.fullName.
    destruct (UserModel.truthy (UserModel.firstName this)) eqn:Hf; simpl.
    + destruct (UserModel.truthy (UserModel.lastName this)) eqn:Hl.
      * apply append_not_empty. now apply truthy_text.
      * destruct (UserModel.truthy (UserModel.email this)) eqn:He;
          [now apply truthy_text | discriminate].
    + destruct (UserModel.truthy (UserModel.email this)) eqn:He;
        [now apply truthy_text | discriminate].
  - intros Hf Hl other. unfold UserModel.fullName. simpl. now rewrite Hf, Hl.
Qed.

(** ** More on concurrent claims *)

Lemma NoDup_map_filter {A B} (f : A -> B) (g : A -> bool) (l : list A) :
  NoDup (map f l) -> NoDup (map f (List.filter g l)).
Proof.
  induction l as [|x l IH]; intros Hnd; [constructor|].
  simpl in Hnd. apply NoDup_cons in Hnd. destruct Hnd as [Hx Hnd]. simpl.
  destruct (g x); [|now apply IH]. simpl. apply NoDup_cons. split; [|now apply IH].
  intros Hin. apply Hx. apply list_elem_of_In, List.in_map_iff in Hin.
  destruct Hin as (y & Hy & Hin). apply List.filter_In in Hin. destruct Hin as [Hin _].
  rewrite <- Hy. apply list_elem_of_In, List.in_map, Hin.
Qed.

Lemma in_flight_bound (txs : list ClaimRace.Tx) :
  (length (ClaimRace.locked_rows txs) + length (omap ClaimRace.won txs)
   + length (List.filter (fun tx => match tx with ClaimRace.Issued _ => true | _ => false end) txs)
   <= length txs)%nat.
Proof.
  unfold ClaimRace.locked_rows. induction txs as [|tx txs IH]; [reflexivity|].
  destruct tx as [u|u sub|u [[|r rs]| |]]; simpl in *;
    change (list_omap ClaimRace.Tx MachineId ClaimRace.holds txs)
      with (omap ClaimRace.holds txs) in *;
    change (list_omap ClaimRace.Tx Machine ClaimRace.won txs)
      with (omap ClaimRace.won txs) in *; lia.
Qed.

Lemma issued_bound (txs : list ClaimRace.Tx) i u :
  txs !! i = Some (ClaimRace.Issued u) ->
  (length (ClaimRace.locked_rows txs) + length (omap ClaimRace.won txs) < length txs)%nat.
Proof.
  intros Hi. pose proof (in_flight_bound txs) as Hb.
  assert (Hin : In (ClaimRace.Issued u)
                  (List.filter (fun tx => match tx with ClaimRace.Issued _ => true | _ => false end) txs)).
  { apply List.filter_In. split; [|reflexivity].
    apply list_elem_of_In. eapply list_elem_of_lookup_2. exact Hi. }
  destruct (List.filter _ txs); [contradiction|]. simpl in Hb. lia.
Qed.

Section RaceSafety.

Import ClaimRace.

Variable table0 : list Machine.
Variable users : list UserId.
Hypothesis Hkeys : NoDup (map id table0).
Hypothesis Husers : NoDup users.
Hypothesis Hnew : forall u, u ∈ users -> existsb (has_user u) table0 = false.

Lemma winners_distinct table txs :
  Inv table0 users table txs -> NoDup (map id (omap won txs)).
Proof.
  intros HI.
  assert (Hnd : NoDup (omap won txs)).
  { apply (NoDup_fmap_1 user).
    eapply sublist_NoDup; [|apply (winners_users table txs (inv_settled _ _ _ _ HI))].
    change (NoDup ((fun tx => Some (caller tx)) <$> txs)).
    rewrite (list_fmap_compose caller Some).
    apply (NoDup_fmap_2 Some).
    change (caller <$> txs) with (map caller txs).
    now rewrite (inv_callers _ _ _ _ HI). }
  change (NoDup (id <$> omap won txs)).
  apply NoDup_fmap_2_strong; [|exact Hnd].
  intros x y Hx Hy Heq.
  eapply (NoDup_map_inj_on id table); try eassumption.
  - eapply table_keys; eassumption.
  - eapply winners_in_table; [apply (inv_settled _ _ _ _ HI) | exact Hx].
  - eapply winners_in_table; [apply (inv_settled _ _ _ _ HI) | exact Hy].
Qed.

(** X19: at every moment of a race, finished or not, no machine has been
    handed to two callers: the rows handed out so far have pairwise distinct
    ids, are rows of the table owned by their caller's statement, were free
    at the start, number at most the machines that were free, and the ids of
    the table are the ones it started with. *)
Theorem claim_race_safety (table : list Machine) (txs : list Tx) :
  rtc step (table0, map Issued users) (table, txs) ->
  NoDup (map id (omap won txs))
  /\ (length (omap won txs) <= length (List.filter is_free table0))%nat
  /\ map id table = map id table0
  /\ forall row, row ∈ omap won txs ->
       row ∈ table
       /\ exists m0, m0 ∈ table0 /\ is_free m0 = true /\ id m0 = id row.
Proof.
  intros Hrun. pose proof (Inv_reachable table0 users Hkeys Husers Hnew _ _ Hrun) as HI.
  split; [now apply (winners_distinct table)|].
  split; [pose proof (inv_count _ _ _ _ HI); lia|].
  split; [apply (inv_ids _ _ _ _ HI)|].
  intros row Hrow. split.
  - eapply winners_in_table; [apply (inv_settled _ _ _ _ HI) | exact Hrow].
  - apply list_elem_of_omap in Hrow. destruct Hrow as (tx & Hin & Hwon).
    pose proof (inv_pool _ _ _ _ HI) as Hpool. rewrite Forall_forall in Hpool.
    specialize (Hpool tx Hin). unfold from_pool in Hpool. now rewrite Hwon in Hpool.
Qed.

Hypothesis Henough : (length users <= length (List.filter is_free table0))%nat.

Lemma never_starved table txs :
  rtc step (table0, map Issued users) (table, txs) ->
  forall k u, txs !! k <> Some (Finished u (Resolved [])).
Proof.
  intros Hrun.
  cut ((fun c : Config =>
          Inv table0 users c.1 c.2
          /\ forall k u, c.2 !! k <> Some (Finished u (Resolved []))) (table, txs));
    [intros [_ H]; exact H|].
  eapply rtc_ind_r; [| |exact Hrun].
  - split; [apply Inv_init|]. simpl. intros k u Hk.
    change (map Issued users) with (Issued <$> users) in Hk.
    rewrite list_lookup_fmap in Hk. destruct (users !! k); discriminate.
  - intros [t1 x1] [t2 x2] _ Hstep [HI Hno]. simpl in *.
    split; [eapply Inv_step; eassumption|].
    inversion Hstep as [? ? i u m Hi Hin Hfree Hunlocked
                       |? ? i u Hi Hall
                       |? ? i u sub Hi Hex
                       |? ? i u sub Hi Hex]; subst.
    + intros k u' Hk. apply list_lookup_insert_Some in Hk.
      destruct Hk as [(_ & Heq & _)|(_ & Hk)]; [discriminate | now apply (Hno k u')].
    + exfalso.
      pose proof (issued_bound _ _ _ Hi) as Hbound.
      pose proof (inv_count _ _ _ _ HI) as Hcount.
      assert (Hlen : length x1 = length users).
      { rewrite <- (inv_callers _ _ _ _ HI). now rewrite length_map. }
      assert (Hsub : (length (map id (List.filter is_free t2))
                      <= length (locked_rows x1))%nat).
      { apply submseteq_length, NoDup_submseteq.
        - apply NoDup_map_filter. eapply table_keys; eassumption.
        - intros s Hs. apply list_elem_of_In, List.in_map_iff in Hs.
          destruct Hs as (m & <- & Hm). apply List.filter_In in Hm.
          destruct Hm as [Hm Hf]. apply Hall; [now apply list_elem_of_In | exact Hf]. }
      rewrite length_map in Hsub. lia.
    + destruct (inv_lock _ _ _ _ HI _ _ _ Hi) as (m & Hm & Hid & Hfree).
      assert (Hne : List.filter (has_id sub) (assign_user u sub t1) <> []).
      { rewrite <- Hid. apply assigned_rows_nonempty. now apply list_elem_of_In. }
      intros k u' Hk. apply list_lookup_insert_Some in Hk.
      destruct Hk as [(_ & Heq & _)|(_ & Hk)]; [|now apply (Hno k u')].
      inversion Heq as [[Hu Hrows]]. congruence.
    + intros k u' Hk. apply list_lookup_insert_Some in Hk.
      destruct Hk as [(_ & Heq & _)|(_ & Hk)]; [discriminate | now apply (Hno k u')].
Qed.

(** X20: when there are at least as many free machines as callers, nobody
    is turned away: however the transactions interleave, once all have
    finished every callback was handed a row, no callback sees an empty
    result, and the rows have pairwise distinct ids. *)
Theorem claim_race_enough_machines (table' : list Machine) (txs' : list Tx) :
  rtc step (table0, map Issued users) (table', txs') ->
  Forall (fun tx => finished tx = true) txs' ->
  length (omap won txs') = length users
  /\ List.filter starved txs' = []
  /\ NoDup (map id (omap won txs')).
Proof.
  intros Hrun Hfin.
  pose proof (Inv_reachable table0 users Hkeys Husers Hnew _ _ Hrun) as HI.
  pose proof (never_starved _ _ Hrun) as Hno.
  assert (Hnone : List.filter starved txs' = []).
  { apply filter_nil_not. intros tx Hin Hst.
    apply list_elem_of_lookup in Hin. destruct Hin as [k Hk].
    destruct tx as [| |u [[|r rs]| |]]; simpl in Hst; try discriminate.
    exact (Hno k u Hk). }
  pose proof (winners_or_starved _ _ (inv_settled _ _ _ _ HI) Hfin) as Hsplit.
  rewrite Hnone in Hsplit. simpl in Hsplit.
  split; [|split; [exact Hnone | now apply (winners_distinct table')]].
  rewrite <- (inv_callers _ _ _ _ HI), length_map. lia.
Qed.

End RaceSafety.

(** X21: a race never gets stuck.  In any configuration either every
    statement has finished or some statement can take a step (none waits
    for a lock held by another), and the statements can always be brought
    to their end. *)
Theorem claim_race_never_stuck (table : list Machine) (txs : list ClaimRace.Tx) :
  (Forall (fun tx => ClaimRace.finished tx = true) txs
   \/ exists c', ClaimRace.step (table, txs) c')
  /\ exists table' txs',
       rtc ClaimRace.step (table, txs) (table', txs')
       /\ Forall (fun tx => ClaimRace.finished tx = true) txs'.
Proof.
  split.
  - destruct (Forall_Exists_dec (fun tx => ClaimRace.finished tx = true)
                (fun tx => ClaimRace.finished tx = false)
                (fun tx => match ClaimRace.finished tx as b
                                 return {b = true} + {b = false} with
                           | true => left eq_refl
                           | false => right eq_refl
                           end) txs) as [Hall|Hex]; [now left | right].
    apply Exists_exists in Hex. destruct Hex as (tx & Hin & Hfin).
    apply list_elem_of_lookup in Hin. destruct Hin as [i Hi].
    exact (step_progress table txs i tx Hi Hfin).
  - exact (race_completes (ClaimRace.total_work txs) table txs (le_n _)).
Qed.

(** ** The further properties on concrete runs *)

Lemma getMachineForUser_not_initialized_witness :
  fst (getMachineForUser Scenario.alice
         (Cases.fresh_world [Scenario.m1] (fun _ => Resolved Scenario.settings)))
  = Rejected driverNotInitializedError.
Proof.
  now rewrite (getMachineForUser_not_initialized Scenario.alice
                 (Cases.fresh_world [Scenario.m1] (fun _ => Resolved Scenario.settings))
                 eq_refl).
Defined.

Lemma getMachineForUser_starved_witness :
  fst (getMachineForUser Scenario.alice
         (Scenario.world Scenario.dummy [Scenario.m2] 0 Scenario.body_no_session))
  = Rejected noMachineFoundError.
Proof.
  now rewrite (getMachineForUser_starved Scenario.alice
                 (Scenario.world Scenario.dummy [Scenario.m2] 0 Scenario.body_no_session)
                 Scenario.dummy eq_refl eq_refl eq_refl).
Defined.

Lemma NoDup_two_ids : NoDup (map id [Scenario.m1; Scenario.m2]).
Proof. apply (bool_decide_unpack _). vm_compute. exact I. Defined.

Lemma claim_statement_then_lookup_witness :
  fst (claim_statement "alice" [Scenario.m1; Scenario.m2])
  = Resolved [with_user "alice" Scenario.m1]
  /\ List.find (has_user "alice") (snd (claim_statement "alice" [Scenario.m1; Scenario.m2]))
     = Some (with_user "alice" Scenario.m1).
Proof.
  destruct (claim_statement_then_lookup "alice" [Scenario.m1; Scenario.m2] Scenario.m1
              NoDup_two_ids eq_refl eq_refl) as (Hres & Hfind & _).
  split; assumption.
Defined.

Lemma claim_statement_keeps_ownership_witness :
  NoDup (omap user (snd (claim_statement "alice" [Scenario.m1; Scenario.m2]))).
Proof.
  destruct (claim_statement_keeps_ownership "alice" [Scenario.m1; Scenario.m2]
              NoDup_two_ids) as (_ & Hown).
  - apply (bool_decide_unpack _). vm_compute. exact I.
  - exact Hown.
Defined.

Lemma finally_handler_removes_witness :
  _awaitingMachines
    (finally_handler {| pid := 0; settles := Pending |} Scenario.world_in_flight)
  = [ {| pid := 1; settles := Pending |} ].
Proof.
  destruct (finally_handler_removes {| pid := 0; settles := Pending |}
              Scenario.world_in_flight) as (Hmid & _).
  apply (Hmid [] {| pid := 0; settles := Pending |} [ {| pid := 1; settles := Pending |} ]);
    [reflexivity | reflexivity |].
  intros q Hq. apply list_elem_of_singleton in Hq. subst q. discriminate.
Defined.

Lemma reconcile_restores_in_flight_witness :
  _awaitingMachines
    (snd (_updateMachinesPool
            (Scenario.world Scenario.dummy [Scenario.m2] 0 Scenario.body_no_session)))
  = [].
Proof.
  destruct (reconcile_restores_in_flight
              (Scenario.world Scenario.dummy [Scenario.m2] 0 Scenario.body_no_session)
              Scenario.dummy Scenario.settings Scenario.settings eq_refl eq_refl eq_refl)
    as (_ & Hsame & _).
  - intros machineName table. discriminate.
  - intros p Hp. now apply not_elem_of_nil in Hp.
  - exact Hsame.
Defined.

Lemma dummy_appends machineName table :
  exists m extra,
    driver_createMachine Scenario.dummy machineName table = (Resolved m, table ++ extra).
Proof. now exists (Scenario.fresh machineName), [Scenario.fresh machineName]. Defined.

Lemma getMachineForUser_claim_then_again_witness :
  fst (getMachineForUser Scenario.alice
         (snd (getMachineForUser Scenario.alice
                 (Scenario.world Scenario.dummy [Scenario.m1; Scenario.m2] 0
                    Scenario.body_no_session))))
  = Resolved (with_user "alice" Scenario.m1).
Proof.
  destruct (getMachineForUser_claim_then_again Scenario.alice
              (Scenario.world Scenario.dummy [Scenario.m1; Scenario.m2] 0
                 Scenario.body_no_session)
              Scenario.dummy Scenario.settings Scenario.settings Scenario.m1
              eq_refl eq_refl eq_refl dummy_appends NoDup_two_ids eq_refl eq_refl)
    as (_ & Hagain & _).
  exact Hagain.
Defined.

Lemma reconcile_unreadable_name_witness :
  fst (_updateMachinesPool Cases.world_no_name)
  = Rejected (ExternalError "no such key")
  /\ machines (snd (_updateMachinesPool Cases.world_no_name)) = [Scenario.m2].
Proof.
  destruct (reconcile_unreadable_name Cases.world_no_name Scenario.dummy Scenario.settings
              (ExternalError "no such key") eq_refl eq_refl eq_refl)
    as (Hout & Htable & _).
  - simpl. lia.
  - split; assumption.
Defined.

Lemma initialize_first_call_witness :
  fst (initialize (Scenario.rt Scenario.dummy)
         (Cases.fresh_world [Scenario.m2] (fun _ => Resolved Scenario.settings)))
  = Resolved tt
  /\ _driver (snd (initialize (Scenario.rt Scenario.dummy)
                     (Cases.fresh_world [Scenario.m2] (fun _ => Resolved Scenario.settings))))
     = Some Scenario.dummy.
Proof.
  destruct (initialize_first_call (Scenario.rt Scenario.dummy)
              (Cases.fresh_world [Scenario.m2] (fun _ => Resolved Scenario.settings))
              Scenario.settings Scenario.dummy eq_refl eq_refl eq_refl eq_refl eq_refl)
    as (Hout & Hdrv & _).
  split; assumption.
Defined.

Lemma initialize_failure_is_kept_witness :
  fst (initialize (Scenario.rt Scenario.dummy)
         (Cases.fresh_world [] (fun _ => Resolved Cases.settings_unknown)))
  = Rejected TypeError.
Proof.
  destruct (initialize_failure_is_kept (Scenario.rt Scenario.dummy)
              (Cases.fresh_world [] (fun _ => Resolved Cases.settings_unknown))
              TypeError eq_refl eq_refl) as (Hout & _).
  - right. exists Cases.settings_unknown. split; [reflexivity|]. split; [|reflexivity].
    apply (bool_decide_unpack _). vm_compute. exact I.
  - exact Hout.
Defined.

Lemma initialize_driver_failure_witness :
  fst (initialize (Scenario.rt Cases.broken)
         (Cases.fresh_world [] (fun _ => Resolved Scenario.settings)))
  = Rejected (ExternalError "no credentials")
  /\ _driver (snd (initialize (Scenario.rt Cases.broken)
                     (Cases.fresh_world [] (fun _ => Resolved Scenario.settings))))
     = Some Cases.broken.
Proof.
  destruct (initialize_driver_failure (Scenario.rt Cases.broken)
              (Cases.fresh_world [] (fun _ => Resolved Scenario.settings))
              Scenario.settings Cases.broken (ExternalError "no credentials")
              eq_refl eq_refl eq_refl eq_refl eq_refl) as (Hout & Hdrv & _).
  split; assumption.
Defined.


Lemma renewal_failures_witness :
  fst (sessionOpen Scenario.alice
         (Scenario.world Scenario.dummy [Scenario.m2] 1000 Scenario.body_no_session))
  = Rejected TypeError.
Proof.
  destruct (renewal_failures Scenario.alice
              (Scenario.world Scenario.dummy [Scenario.m2] 1000 Scenario.body_no_session))
    as (_ & Hnone).
  now rewrite (Hnone Scenario.settings eq_refl eq_refl).
Defined.

Lemma shouldTerminate_without_driver_witness :
  stored "m2"
    (snd (_shouldTerminateMachine (Scenario.rt Scenario.dummy) Scenario.m2
            (set_clock 2000
               (Cases.fresh_world [Scenario.m2] (fun _ => Resolved Scenario.settings)))))
  = None.
Proof.
  destruct (shouldTerminate_without_driver (Scenario.rt Scenario.dummy) Scenario.m2
              (set_clock 2000
                 (Cases.fresh_world [Scenario.m2] (fun _ => Resolved Scenario.settings)))
              _ eq_refl eq_refl eq_refl) as (Hgone & _).
  exact Hgone.
Defined.

Lemma machines_lists_driver_type_witness :
  exists l,
    machines_ Cases.server_status
      (Scenario.world Scenario.dummy [Scenario.m1; Cases.m3] 0 Scenario.body_no_session)
    = Returns (Resolved l)
    /\ map object l = [Scenario.m1].
Proof.
  destruct (machines_lists_driver_type Cases.server_status
              (Scenario.world Scenario.dummy [Scenario.m1; Cases.m3] 0
                 Scenario.body_no_session)) as (_ & Hdriver).
  destruct (Hdriver Scenario.dummy eq_refl) as (_ & Hlist & Hok & _).
  destruct Hok as [l Hl].
  - intros m Hm Ht. apply list_elem_of_In in Hm. simpl in Hm.
    destruct Hm as [<-|[<-|[]]]; [now eexists | discriminate Ht].
  - exists l. split; [exact Hl|]. now destruct (Hlist l Hl) as (Hmap & _).
Defined.

Lemma fullName_never_empty_witness :
  UserModel.fullName Cases.grace <> ""
  /\ UserModel.fullName
       {| UserModel.email := Some "grace@example.org";
          UserModel.isAdmin := Some false;
          UserModel.firstName := Some "Grace"; UserModel.lastName := Some "Hopper" |}
     = UserModel.fullName Cases.grace.
Proof.
  destruct (fullName_never_empty Cases.grace) as (Hne & Hsame).
  split; [exact Hne|]. exact (Hsame eq_refl eq_refl (Some "grace@example.org")).
Defined.

Lemma NoDup_two_users : NoDup ["alice"; "carol"].
Proof. apply (bool_decide_unpack _). vm_compute. exact I. Defined.

Lemma claim_race_safety_witness :
  NoDup (map id (omap ClaimRace.won (snd Scenario.race_end)))
  /\ (length (omap ClaimRace.won (snd Scenario.race_end)) <= 1)%nat.
Proof.
  destruct (claim_race_safety [Scenario.m1] ["alice"; "carol"]) with
    (table := fst Scenario.race_end) (txs := snd Scenario.race_end)
    as (Hdistinct & Hbound & _).
  - apply (bool_decide_unpack _). vm_compute. exact I.
  - exact NoDup_two_users.
  - intros u Hu. apply list_elem_of_In in Hu. simpl in Hu.
    destruct Hu as [<-|[<-|[]]]; reflexivity.
  - exact claim_race_run.
  - split; [exact Hdistinct | exact Hbound].
Defined.

Lemma pair_run : rtc ClaimRace.step Cases.pair_start Cases.pair_end.
Proof.
  apply (rtc_l _ _ ([Scenario.m1; Cases.m3],
                    [ClaimRace.Locking "alice" "m1"; ClaimRace.Issued "carol"])).
  { apply (ClaimRace.step_select [Scenario.m1; Cases.m3]
             [ClaimRace.Issued "alice"; ClaimRace.Issued "carol"] 0 "alice" Scenario.m1);
      [reflexivity | apply list_elem_of_here | reflexivity | apply not_elem_of_nil]. }
  apply (rtc_l _ _ ([Scenario.m1; Cases.m3],
                    [ClaimRace.Locking "alice" "m1"; ClaimRace.Locking "carol" "m3"])).
  { apply (ClaimRace.step_select [Scenario.m1; Cases.m3]
             [ClaimRace.Locking "alice" "m1"; ClaimRace.Issued "carol"] 1 "carol" Cases.m3);
      [reflexivity | apply list_elem_of_further, list_elem_of_here | reflexivity |].
    apply (bool_decide_unpack _). vm_compute. exact I. }
  apply (rtc_l _ _ (assign_user "carol" "m3" [Scenario.m1; Cases.m3],
                    [ClaimRace.Locking "alice" "m1";
                     ClaimRace.Finished "carol" (Resolved [with_user "carol" Cases.m3])])).
  { apply (ClaimRace.step_update [Scenario.m1; Cases.m3]
             [ClaimRace.Locking "alice" "m1"; ClaimRace.Locking "carol" "m3"]
             1 "carol" "m3"); reflexivity. }
  apply rtc_once.
  apply (ClaimRace.step_update (assign_user "carol" "m3" [Scenario.m1; Cases.m3])
           [ClaimRace.Locking "alice" "m1";
            ClaimRace.Finished "carol" (Resolved [with_user "carol" Cases.m3])]
           0 "alice" "m1"); reflexivity.
Defined.

Lemma claim_race_enough_machines_witness :
  length (omap ClaimRace.won (snd Cases.pair_end)) = 2%nat
  /\ List.filter ClaimRace.starved (snd Cases.pair_end) = []
  /\ NoDup (map id (omap ClaimRace.won (snd Cases.pair_end))).
Proof.
  destruct (claim_race_enough_machines [Scenario.m1; Cases.m3] ["alice"; "carol"]) with
    (table' := fst Cases.pair_end) (txs' := snd Cases.pair_end)
    as (Hall & Hnone & Hdistinct).
  - apply (bool_decide_unpack _). vm_compute. exact I.
  - exact NoDup_two_users.
  - intros u Hu. apply list_elem_of_In in Hu. simpl in Hu.
    destruct Hu as [<-|[<-|[]]]; reflexivity.
  - simpl. lia.
  - exact pair_run.
  - repeat constructor.
  - split; [exact Hall|]. split; [exact Hnone | exact Hdistinct].
Defined.
